(** * Fixture scheduling model (fmodel.py): shallow embedding and properties

    The development follows [src/fmodel.py]:
    - dates are day ordinals ([date.toordinal()]), so [(d2 - d1).days] is
      subtraction on [Z];
    - a [frozenset[date]] is a [gset Z];
    - the insertion-ordered dictionaries ([collections.defaultdict(list)])
      built by [solve] are association lists in insertion order;
    - the CP-SAT engine is external: [solve] takes it as a function from a
      model to a status and a valuation, constrained by its contract. *)

From stdpp Require Import gmap strings list sorting pretty.
From Stdlib Require Import ZArith Lia Ascii.

Open Scope Z_scope.

(** ** Dates and windows *)

Abbreviation Date := Z.
Abbreviation window := (gset Z).

(** [sorted(dates)]. *)
Definition sorted (dates : list Date) : list Date := merge_sort Z.le dates.

(** The inner loop of [date_windows]: [rest] is [dates[i+1:]], [w] the set
    built so far; the loop stops at the first date beyond the window. *)
Fixpoint window_from (d : Date) (rest : list Date) (window_days : Z)
    (w : window) : window :=
  match rest with
  | [] => w
  | dj :: rest' =>
      if decide (dj - d <= window_days)
      then window_from d rest' window_days ({[dj]} ∪ w)
      else w
  end.

(** The outer loop: one window per position of the sorted list. *)
Fixpoint anchored_windows (dates : list Date) (window_days : Z)
    : list window :=
  match dates with
  | [] => []
  | d :: rest =>
      window_from d rest window_days {[d]} :: anchored_windows rest window_days
  end.

(** [all_windows.sort(key=len, reverse=True)]: a stable sort, larger
    windows first; among windows of one size the earlier stays first. *)
Fixpoint insert_by_len (w : window) (l : list window) : list window :=
  match l with
  | [] => [w]
  | w' :: l' =>
      if decide (size w' < size w)%nat then w :: l
      else w' :: insert_by_len w l'
  end.

Definition sort_by_len_desc (l : list window) : list window :=
  fold_left (fun acc w => insert_by_len w acc) l [].

(** The filtering loop: a window is kept unless a kept window includes it. *)
Definition keep_window (result : list window) (w : window) : list window :=
  if decide (Exists (fun w' => w ⊆ w') result) then result else result ++ [w].

Definition date_windows (dates : list Date) (window_days : Z) : list window :=
  let all_windows := anchored_windows (sorted dates) window_days in
  let all_windows := sort_by_len_desc all_windows in
  fold_left keep_window all_windows [].

(** The span of a window: latest date minus earliest date. *)
Definition span_le (w : window) (n : Z) : Prop :=
  forall a b, a ∈ w -> b ∈ w -> b - a <= n.

(** No window of the list lies inside a window at another position. *)
Definition subset_free (r : list window) : Prop :=
  forall i j w1 w2, r !! i = Some w1 -> r !! j = Some w2 -> i ≠ j -> ¬ w1 ⊆ w2.

(** The order produced by [sort(key=len, reverse=True)]. *)
Definition len_ge (w1 w2 : window) : Prop := (size w2 <= size w1)%nat.

(** ** Domain model *)

Record Team := { division : Z; club : string; index : Z }.

Record Fixture := { home_team : Team; away_team : Team }.

Record ScheduledFixture := { fixture : Fixture; date : Date }.

Record Parameters := {
  teams : list Team;
  home_dates : gmap string (list Date);
  unavailable_away_dates : gmap string (list Date);
  min_gap_days : Z;
  max_concurrent_home_matches : Z }.

#[global] Instance Team_eq_dec : EqDecision Team.
Proof. solve_decision. Defined.

#[global] Instance Fixture_eq_dec : EqDecision Fixture.
Proof. solve_decision. Defined.

#[global] Instance ScheduledFixture_eq_dec : EqDecision ScheduledFixture.
Proof. solve_decision. Defined.

(** ** Exceptions

    The exceptions raised by the code of [solve] itself.  The integers of
    [Parameters] are Python integers, unbounded; the OR-tools binding takes
    64-bit bounds and has an error of its own for a
    [max_concurrent_home_matches] beyond them, raised where the capacity
    constraints are built.  That error is not modelled, and nothing below
    states which exception [solve] raises once a capacity constraint is
    built. *)

Inductive exn :=
  | KeyError (key : string)
  | ValueError (msg : string).

Inductive result (A : Type) :=
  | Ok (a : A)
  | Raise (e : exn).
Arguments Ok {A} a.
Arguments Raise {A} e.

(** A [for] loop over [l] whose body may raise: the first exception ends
    the loop. *)
Fixpoint for_each {A S : Type} (l : list A) (body : A -> S -> result S)
    (s : S) : result S :=
  match l with
  | [] => Ok s
  | x :: l' =>
      match body x s with
      | Ok s' => for_each l' body s'
      | Raise e => Raise e
      end
  end.

(** ** Insertion-ordered dictionaries *)

Section dict.
Context {K V : Type} `{EqDecision K}.

Fixpoint dict_get (k : K) (d : list (K * V)) : option V :=
  match d with
  | [] => None
  | (k', v) :: d' => if decide (k = k') then Some v else dict_get k d'
  end.

(** [d[k] = f(d[k])] on a [defaultdict] whose default value is [dflt]:
    an existing entry is updated in place, a new key goes last. *)
Fixpoint dict_update (k : K) (f : V -> V) (dflt : V) (d : list (K * V))
    : list (K * V) :=
  match d with
  | [] => [(k, f dflt)]
  | (k', v) :: d' =>
      if decide (k = k') then (k', f v) :: d'
      else (k', v) :: dict_update k f dflt d'
  end.
End dict.

(** [d[k].append(x)] on a [defaultdict(list)]. *)
Definition dict_append {K A : Type} `{EqDecision K} (k : K) (x : A)
    (d : list (K * list A)) : list (K * list A) :=
  dict_update k (fun l => l ++ [x]) [] d.

(** [itertools.permutations(l, 2)]: the pairs of elements at two different
    positions, in the order of the positions. *)
Fixpoint permutations2_aux {A : Type} (pre l : list A) : list (A * A) :=
  match l with
  | [] => []
  | x :: post => map (pair x) (pre ++ post) ++ permutations2_aux (pre ++ [x]) post
  end.

Definition permutations2 {A : Type} (l : list A) : list (A * A) :=
  permutations2_aux [] l.

(** ** The constraint model handed to the engine *)

(** A boolean variable is its index in the model. *)
Abbreviation var := nat.

Inductive relop := EqualTo | AtMost.

(** [LinearExpr.Sum(vars) == rhs] and [LinearExpr.Sum(vars) <= rhs]. *)
Record constraint := { c_vars : list var; c_op : relop; c_rhs : Z }.

Record CpModel := { num_vars : nat; constraints : list constraint }.

Definition new_bool_var (m : CpModel) : var * CpModel :=
  (num_vars m, {| num_vars := S (num_vars m); constraints := constraints m |}).

Definition add (c : constraint) (m : CpModel) : CpModel :=
  {| num_vars := num_vars m; constraints := constraints m ++ [c] |}.

Inductive CpSolverStatus := UNKNOWN | MODEL_INVALID | FEASIBLE | INFEASIBLE | OPTIMAL.

Definition found_solution (st : CpSolverStatus) : bool :=
  match st with
  | OPTIMAL | FEASIBLE => true
  | _ => false
  end.

Definition bool_to_Z (b : bool) : Z := if b then 1 else 0.

Definition sum_vars (value : var -> bool) (vs : list var) : Z :=
  foldr (fun v acc => bool_to_Z (value v) + acc) 0 vs.

Definition holds (value : var -> bool) (c : constraint) : bool :=
  match c_op c with
  | EqualTo => bool_decide (sum_vars value (c_vars c) = c_rhs c)
  | AtMost => bool_decide (sum_vars value (c_vars c) <= c_rhs c)
  end.

Definition satisfies (value : var -> bool) (m : CpModel) : bool :=
  forallb (holds value) (constraints m).

(** The engine: a status and, when a solution was found, the value of
    every variable. *)
Abbreviation engine := (CpModel -> CpSolverStatus * (var -> bool)).

(** Contract of the engine (spec 4.4).  With no search limit set, as in
    [solve], CP-SAT decides the model. *)
Definition engine_sound (Solve : engine) : Prop :=
  forall m, found_solution (Solve m).1 = true -> satisfies (Solve m).2 m = true.

Definition engine_complete (Solve : engine) : Prop :=
  forall m value, satisfies value m = true -> found_solution (Solve m).1 = true.

(** ** [solve]: construction of variables and indices *)

Record build_state := {
  model : CpModel;
  vars_by_fixture : list (Fixture * list var);
  vars_by_fixture_date : list ((Fixture * Date) * list var);
  vars_by_team_date : list (Team * list (Date * list var));
  vars_by_club_home_date : list ((string * Date) * list var) }.

Definition initial_state : build_state :=
  {| model := {| num_vars := 0; constraints := [] |};
     vars_by_fixture := [];
     vars_by_fixture_date := [];
     vars_by_team_date := [];
     vars_by_club_home_date := [] |}.

(** The first loop of [solve]. *)
Definition teams_by_division (params : Parameters) : list (Z * list Team) :=
  fold_left (fun tbd team => dict_append (division team) team tbd)
    (teams params) [].

(** The body of the innermost loop once the date has passed the test: the
    variable is created and appended to the four indices.  The name given
    to the variable is a label for the engine and plays no role. *)
Definition add_candidate (home_team away_team : Team) (match_date : Date)
    (s : build_state) : build_state :=
  let '(v, m) := new_bool_var (model s) in
  let f := {| home_team := home_team; away_team := away_team |} in
  let by_team :=
    dict_update home_team (dict_append match_date v) [] (vars_by_team_date s) in
  let by_team := dict_update away_team (dict_append match_date v) [] by_team in
  {| model := m;
     vars_by_fixture := dict_append f v (vars_by_fixture s);
     vars_by_fixture_date := dict_append (f, match_date) v (vars_by_fixture_date s);
     vars_by_team_date := by_team;
     vars_by_club_home_date :=
       dict_append (club home_team, match_date) v (vars_by_club_home_date s) |}.

(** [params.unavailable_away_dates.get(club, [])]. *)
Definition unavailable (params : Parameters) (c : string) : list Date :=
  default [] (unavailable_away_dates params !! c).

(** The loop over [params.home_dates[home_team.club]]; the subscript raises
    [KeyError] when the club is not a key. *)
Definition build_fixture (params : Parameters) (pair : Team * Team)
    (s : build_state) : result build_state :=
  let '(home_team, away_team) := pair in
  match home_dates params !! club home_team with
  | None => Raise (KeyError (club home_team))
  | Some dates =>
      for_each dates
        (fun match_date s =>
           if decide (match_date ∈ unavailable params (club away_team))
           then Ok s
           else Ok (add_candidate home_team away_team match_date s))
        s
  end.

Definition build_variables (params : Parameters) : result build_state :=
  for_each (teams_by_division params).*2
    (fun division_teams =>
       for_each (permutations2 division_teams) (build_fixture params))
    initial_state.

(** ** [solve]: the three families of constraints *)

Definition coverage_constraints (s : build_state) : list constraint :=
  map (fun fixture_vars => {| c_vars := fixture_vars; c_op := EqualTo; c_rhs := 1 |})
    (vars_by_fixture s).*2.

(** [[v for d in window for v in team_vars_by_date[d]]]; the order in which
    the dates of the set are visited does not change the sum. *)
Definition window_vars (team_vars_by_date : list (Date * list var))
    (w : window) : list var :=
  d ← elements w; default [] (dict_get d team_vars_by_date).

Definition rest_constraints (params : Parameters) (s : build_state)
    : list constraint :=
  team_vars_by_date ← (vars_by_team_date s).*2;
  map (fun w => {| c_vars := window_vars team_vars_by_date w;
                   c_op := AtMost; c_rhs := 1 |})
    (date_windows team_vars_by_date.*1 (min_gap_days params)).

Definition capacity_constraints (params : Parameters) (s : build_state)
    : list constraint :=
  map (fun club_home_date_vars =>
         {| c_vars := club_home_date_vars; c_op := AtMost;
            c_rhs := max_concurrent_home_matches params |})
    (vars_by_club_home_date s).*2.

Definition final_model (params : Parameters) (s : build_state) : CpModel :=
  let m := fold_left (fun m c => add c m) (coverage_constraints s) (model s) in
  let m := fold_left (fun m c => add c m) (rest_constraints params s) m in
  fold_left (fun m c => add c m) (capacity_constraints params s) m.

(** ** [solve]: reading the schedule off the valuation *)

Definition extract_items (value : var -> bool)
    (items : list ((Fixture * Date) * list var)) : list ScheduledFixture :=
  item ← items;
  let '((f, match_date), fixture_vars) := item in
  v ← fixture_vars;
  if value v then [ {| fixture := f; date := match_date |} ] else [].

Definition extract (value : var -> bool) (s : build_state)
    : list ScheduledFixture :=
  extract_items value (vars_by_fixture_date s).

Section Solve.
Variable Solve : engine.

Definition solve (params : Parameters) : result (list ScheduledFixture) :=
  match build_variables params with
  | Raise e => Raise e
  | Ok s =>
      let '(status, value) := Solve (final_model params s) in
      if found_solution status then Ok (extract value s)
      else Raise (ValueError "No solution found")
  end.
End Solve.

(** ** A reference engine: exhaustive search

    It realises the contract, so the contract is not vacuous, and it lets
    [solve] run on concrete parameters. *)

Fixpoint assignments (n : nat) : list (list bool) :=
  match n with
  | O => [[]]
  | S n' => l ← assignments n'; [false :: l; true :: l]
  end.

Definition valuation (l : list bool) : var -> bool :=
  fun v => default false (l !! v).

(** One more than the largest variable a constraint mentions. *)
Definition var_bound (m : CpModel) : nat :=
  max_list (map S (c ← constraints m; c_vars c)).

Definition exhaustive (m : CpModel) : CpSolverStatus * (var -> bool) :=
  match list_find (fun l => satisfies (valuation l) m = true)
          (assignments (Nat.max (num_vars m) (var_bound m))) with
  | Some (_, l) => (OPTIMAL, valuation l)
  | None => (INFEASIBLE, fun _ => false)
  end.

(** ** Concrete parameters used below *)

Definition team_A : Team := {| division := 1; club := "Test Club A"; index := 1 |}.
Definition team_B : Team := {| division := 1; club := "Test Club B"; index := 1 |}.

(** [test_simple_impossible_constraint] of model_test.py, days counted from
    2024-12-31. *)
Definition impossible_params : Parameters :=
  {| teams := [team_A; team_B];
     home_dates := {[ "Test Club A" := [1]; "Test Club B" := [2] ]};
     unavailable_away_dates := {[ "Test Club A" := [2]; "Test Club B" := [1] ]};
     min_gap_days := 7;
     max_concurrent_home_matches := 1 |}.

(** Two teams with one home date each, a week apart. *)
Definition small_params : Parameters :=
  {| teams := [team_A; team_B];
     home_dates := {[ "Test Club A" := [1]; "Test Club B" := [9] ]};
     unavailable_away_dates := ∅;
     min_gap_days := 7;
     max_concurrent_home_matches := 1 |}.


(** No team at all and a negative capacity. *)
Definition negative_capacity_params : Parameters :=
  {| teams := [];
     home_dates := ∅;
     unavailable_away_dates := ∅;
     min_gap_days := 7;
     max_concurrent_home_matches := -1 |}.

(** [small_params] with a negative rest gap. *)
Definition negative_gap_params : Parameters :=
  {| teams := [team_A; team_B];
     home_dates := {[ "Test Club A" := [1]; "Test Club B" := [9] ]};
     unavailable_away_dates := ∅;
     min_gap_days := -3;
     max_concurrent_home_matches := 1 |}.

(** One team, whose club has no entry in [home_dates]. *)
Definition lone_team_params : Parameters :=
  {| teams := [team_A];
     home_dates := ∅;
     unavailable_away_dates := ∅;
     min_gap_days := 7;
     max_concurrent_home_matches := 2 |}.

(** Two teams of one division, the club of the first without an entry in
    [home_dates]. *)
Definition missing_club_params : Parameters :=
  {| teams := [team_A; team_B];
     home_dates := {[ "Test Club B" := [9] ]};
     unavailable_away_dates := ∅;
     min_gap_days := 7;
     max_concurrent_home_matches := 2 |}.

(** No team, and non-empty mappings. *)
Definition no_teams_params : Parameters :=
  {| teams := [];
     home_dates := {[ "Test Club A" := [1] ]};
     unavailable_away_dates := {[ "Test Club B" := [1] ]};
     min_gap_days := -5;
     max_concurrent_home_matches := -2 |}.

Definition A_hosts_B : ScheduledFixture :=
  {| fixture := {| home_team := team_A; away_team := team_B |}; date := 1 |}.
Definition B_hosts_A : ScheduledFixture :=
  {| fixture := {| home_team := team_B; away_team := team_A |}; date := 9 |}.

(** ** The candidates, as the loops of [solve] visit them *)

(** The ordered pairs the two outer loops go through. *)
Definition required_fixtures (params : Parameters) : list (Team * Team) :=
  division_teams ← (teams_by_division params).*2; permutations2 division_teams.

(** The dates of [home_dates[home.club]] that pass the test of the
    innermost loop. *)
Definition eligible_dates (params : Parameters) (home away : Team) : list Date :=
  filter (fun d => d ∉ unavailable params (club away))
    (default [] (home_dates params !! club home)).

Record candidate := { c_home : Team; c_away : Team; c_date : Date }.

Definition c_fixture (c : candidate) : Fixture :=
  {| home_team := c_home c; away_team := c_away c |}.

Definition c_scheduled (c : candidate) : ScheduledFixture :=
  {| fixture := c_fixture c; date := c_date c |}.

Definition candidates_of (params : Parameters) (pairs : list (Team * Team))
    : list candidate :=
  pair ← pairs;
  map (fun d => {| c_home := pair.1; c_away := pair.2; c_date := d |})
    (eligible_dates params pair.1 pair.2).

Definition candidates (params : Parameters) : list candidate :=
  candidates_of params (required_fixtures params).

Definition add_candidates (cs : list candidate) (s : build_state) : build_state :=
  fold_left (fun s c => add_candidate (c_home c) (c_away c) (c_date c) s) cs s.

(** Variables are numbered in the order of creation. *)
Definition numbered (cs : list candidate) : list (var * candidate) :=
  imap (fun i c => (i, c)) cs.

(** The variables of the candidates that satisfy [P], in order. *)
Definition vars_where (P : candidate -> Prop) `{!forall c, Decision (P c)}
    (ics : list (var * candidate)) : list var :=
  (filter (fun ic => P ic.2) ics).*1.

(** The variables filed under a team and a date: a candidate is filed under
    its home team and under its away team. *)
Definition team_date_vars (t : Team) (d : Date) (ics : list (var * candidate))
    : list var :=
  ic ← ics;
  (if decide (c_home ic.2 = t /\ c_date ic.2 = d) then [ic.1] else []) ++
  (if decide (c_away ic.2 = t /\ c_date ic.2 = d) then [ic.1] else []).

(** What a [defaultdict(list)] holds under a key: nothing, or a list that
    is not empty. *)
Definition entry_of {A : Type} (l : list A) : option (list A) :=
  match l with [] => None | _ => Some l end.

Definition plays (t : Team) (sf : ScheduledFixture) : Prop :=
  home_team (fixture sf) = t \/ away_team (fixture sf) = t.

Definition hosted_on (c : string) (d : Date) (sf : ScheduledFixture) : Prop :=
  club (home_team (fixture sf)) = c /\ date sf = d.

#[global] Instance plays_dec t sf : Decision (plays t sf).
Proof. unfold plays. apply _. Defined.

#[global] Instance hosted_on_dec c d sf : Decision (hosted_on c d sf).
Proof. unfold hosted_on. apply _. Defined.

(** [small_params] with no capacity at all. *)
Definition zero_capacity_params : Parameters :=
  {| teams := [team_A; team_B];
     home_dates := {[ "Test Club A" := [1]; "Test Club B" := [9] ]};
     unavailable_away_dates := ∅;
     min_gap_days := 7;
     max_concurrent_home_matches := 0 |}.

(** [impossible_params] with negative integers. *)
Definition blocked_negative_params : Parameters :=
  {| teams := [team_A; team_B];
     home_dates := {[ "Test Club A" := [1]; "Test Club B" := [2] ]};
     unavailable_away_dates := {[ "Test Club A" := [2]; "Test Club B" := [1] ]};
     min_gap_days := -3;
     max_concurrent_home_matches := -1 |}.

(** ** Windows, said without the loops *)

(** The dates of the collection from [d] up to [n] days later, [d]
    included. *)
Definition forward_window (dates : list Date) (n : Z) (d : Date) : window :=
  {[d]} ∪ list_to_set (filter (fun x => d <= x <= d + n) dates).

(** ** The display name of a team *)

(** The property [Team.name]: the club, a space, the index in decimal. *)
Definition name (t : Team) : string := club t +:+ " " +:+ pretty (index t).

Fixpoint no_space (s : string) : Prop :=
  match s with
  | EmptyString => True
  | String c s' => c ≠ " "%char /\ no_space s'
  end.

(** ** genfixtures.py: generation of dates

    A [date] lies between [date.min] (ordinal 1) and [date.max] (ordinal
    [MAXORDINAL]); adding a [timedelta] that leaves this range raises
    [OverflowError], rendered here by [None]. *)

Definition MAXORDINAL : Z := 3652059.

Definition is_date (d : Date) : Prop := 1 <= d <= MAXORDINAL.

(** [d + timedelta(days=n)]. *)
Definition add_days (d : Date) (n : Z) : option Date :=
  if decide (1 <= d + n <= MAXORDINAL) then Some (d + n) else None.

(** [d.weekday()]: Monday is 0, and ordinal 1 is a Monday. *)
Definition weekday (d : Date) : Z := (d + 6) mod 7.

(** [(d.year, d.month)] in the proleptic Gregorian calendar of [datetime]:
    the cycles of 400, 100, 4 and 1 years are peeled off the ordinal, then
    the month is estimated and corrected. *)
Definition days_before_month (month : Z) : Z :=
  nth (Z.to_nat month)
    [0; 0; 31; 59; 90; 120; 151; 181; 212; 243; 273; 304; 334] 0.

Definition civil_year_month (d : Date) : Z * Z :=
  let n := d - 1 in
  let n400 := n / 146097 in
  let n := n mod 146097 in
  let n100 := n / 36524 in
  let n := n mod 36524 in
  let n4 := n / 1461 in
  let n := n mod 1461 in
  let n1 := n / 365 in
  let n := n mod 365 in
  let year := n400 * 400 + 1 + n100 * 100 + n4 * 4 + n1 in
  if bool_decide (n1 = 4 \/ n100 = 4) then (year - 1, 12)
  else
    let leapyear := bool_decide (n1 = 3 /\ (n4 ≠ 24 \/ n100 = 3)) in
    let month := Z.shiftr (n + 50) 5 in
    let preceding :=
      days_before_month month + (if bool_decide (2 < month) && leapyear then 1 else 0) in
    if bool_decide (n < preceding) then (year, month - 1) else (year, month).

Section gen_dates.
(** The year and the month of a date; [gen_dates] only compares them. *)
Variable year_month : Date -> Z * Z.

(** The first loop: forward day by day to the wanted weekday. *)
Fixpoint seek_weekday (fuel : nat) (current_date : Date) (day_of_week : Z)
    : option Date :=
  if decide (weekday current_date = day_of_week) then Some current_date
  else
    match add_days current_date 1 with
    | None => None
    | Some next =>
        match fuel with
        | O => None
        | S fuel' => seek_weekday fuel' next day_of_week
        end
    end.

(** The second loop: week by week up to [to_date], counting the
    occurrences since the month last changed. *)
Fixpoint weekly (fuel : nat) (to_date : Date) (exclude : list Z)
    (current_date : Date) (current_month : Z * Z) (month_occurrences : Z)
    (result : list Date) : option (list Date) :=
  if decide (current_date <= to_date) then
    let changed := bool_decide (current_month ≠ year_month current_date) in
    let current_month :=
      if changed then year_month current_date else current_month in
    let month_occurrences := if changed then 0 else month_occurrences in
    let month_occurrences := month_occurrences + 1 in
    let result :=
      if decide (month_occurrences ∈ exclude) then result
      else result ++ [current_date] in
    match add_days current_date 7 with
    | None => None
    | Some next =>
        match fuel with
        | O => None
        | S fuel' =>
            weekly fuel' to_date exclude next current_month month_occurrences
              result
        end
    end
  else Some result.

(** A date moves forward at each turn of a loop and cannot pass
    [MAXORDINAL], so the days left to [MAXORDINAL] bound the turns: the
    fuel never runs out before the loop ends or overflows. *)
Definition gen_dates (from_date to_date : Date) (day_of_week : Z)
    (exclude_month_occurrences : option (list Z)) : option (list Date) :=
  let exclude := default [] exclude_month_occurrences in
  match seek_weekday (Z.to_nat (MAXORDINAL - from_date)) from_date day_of_week with
  | None => None
  | Some current_date =>
      weekly (Z.to_nat (MAXORDINAL - current_date)) to_date exclude
        current_date (year_month from_date) 0 []
  end.
End gen_dates.

(** [calendar.MONDAY] ... [calendar.THURSDAY]. *)
Definition MONDAY : Z := 0.
Definition TUESDAY : Z := 1.
Definition WEDNESDAY : Z := 2.
Definition THURSDAY : Z := 3.

(** [result[:k]]: a negative [k] counts from the end. *)
Definition slice_to {A : Type} (k : Z) (l : list A) : list A :=
  if decide (k < 0) then take (Z.to_nat (Z.of_nat (length l) + k)) l
  else take (Z.to_nat k) l.

Section remove_random.
(** [random.shuffle], as the list it leaves behind. *)
Variable shuffle : list Date -> list Date.

(** [keep] is the integer [int(len(result) * (1 - fraction))], whose
    floating-point computation is left out. *)
Definition remove_random (dates : list Date) (keep : Z) : list Date :=
  sorted (slice_to keep (shuffle dates)).
End remove_random.

(** ** genfixtures.py: the report

    [print_fixtures] is rendered by the list of the strings it prints, one
    per call of [print]. *)

(** [sorted(l, key=lambda sf: sf.date)]: stable. *)
Fixpoint insert_by_date (sf : ScheduledFixture) (l : list ScheduledFixture)
    : list ScheduledFixture :=
  match l with
  | [] => [sf]
  | sf' :: l' =>
      if decide (date sf < date sf') then sf :: l
      else sf' :: insert_by_date sf l'
  end.

Definition sorted_by_date (l : list ScheduledFixture) : list ScheduledFixture :=
  fold_left (fun acc sf => insert_by_date sf acc) l [].

(** The order of the keys [(t.club, t.index)]: the clubs are compared as
    strings, character by character, then the indices. *)
Definition team_key_lt (t1 t2 : Team) : bool :=
  match String.compare (club t1) (club t2) with
  | Lt => true
  | Eq => bool_decide (index t1 < index t2)
  | Gt => false
  end.

(** [sorted(teams, key=lambda t: (t.club, t.index))]: stable. *)
Fixpoint insert_by_team_key (t : Team) (l : list Team) : list Team :=
  match l with
  | [] => [t]
  | t' :: l' =>
      if team_key_lt t t' then t :: l else t' :: insert_by_team_key t l'
  end.

Definition sorted_by_team_key (l : list Team) : list Team :=
  fold_left (fun acc t => insert_by_team_key t acc) l [].

(** [gap_str]: empty for the first fixture of a section ([last_date] is
    [None]), else the days since the fixture before. *)
Definition gap_str (last_date : option Date) (d : Date) : string :=
  match last_date with
  | Some last => " (+" +:+ pretty (d - last) +:+ "d)"
  | None => ""
  end.

Section print_fixtures.
(** [d.strftime('%a')] and [d.isoformat()]. *)
Variable strftime_a : Date -> string.
Variable isoformat : Date -> string.

(** The sides of a fixture that belong to the club. *)
Definition club_teams (club0 : string) (sf : ScheduledFixture)
    : list (Team * string * string) :=
  filter (fun tvo => club tvo.1.1 = club0)
    [ (home_team (fixture sf), "Home", name (away_team (fixture sf)));
      (away_team (fixture sf), "Away", name (home_team (fixture sf))) ].

Fixpoint club_lines (club0 : string) (club_fixtures : list ScheduledFixture)
    (last_date : option Date) : list string :=
  match club_fixtures with
  | [] => []
  | sf :: rest =>
      map (fun tvo =>
             "  " +:+ strftime_a (date sf) +:+ " " +:+ isoformat (date sf) +:+
             ": " +:+ name tvo.1.1 +:+ " " +:+ tvo.1.2 +:+ " vs " +:+ tvo.2 +:+
             gap_str last_date (date sf))
        (club_teams club0 sf)
      ++ club_lines club0 rest (Some (date sf))
  end.

Fixpoint team_lines (team : Team) (team_fixtures : list ScheduledFixture)
    (last_date : option Date) : list string :=
  match team_fixtures with
  | [] => []
  | sf :: rest =>
      let venue_opp :=
        if decide (home_team (fixture sf) = team)
        then ("Home", name (away_team (fixture sf)))
        else ("Away", name (home_team (fixture sf))) in
      ("  " +:+ strftime_a (date sf) +:+ " " +:+ isoformat (date sf) +:+
       ": " +:+ venue_opp.1 +:+ " vs " +:+ venue_opp.2 +:+
       gap_str last_date (date sf))
      :: team_lines team rest (Some (date sf))
  end.

(** The first loop: every fixture is filed under the clubs and under the
    teams of both its sides. *)
Definition file_fixture
    (idx : list (string * list ScheduledFixture) *
           list (Team * list ScheduledFixture))
    (sf : ScheduledFixture)
    : list (string * list ScheduledFixture) *
      list (Team * list ScheduledFixture) :=
  let by_club := dict_append (club (home_team (fixture sf))) sf idx.1 in
  let by_club := dict_append (club (away_team (fixture sf))) sf by_club in
  let by_team := dict_append (home_team (fixture sf)) sf idx.2 in
  let by_team := dict_append (away_team (fixture sf)) sf by_team in
  (by_club, by_team).

Definition print_fixtures (fixtures : list ScheduledFixture) : list string :=
  let idx := fold_left file_fixture fixtures ([], []) in
  let fixtures_by_club := idx.1 in
  let fixtures_by_team := idx.2 in
  ["Fixtures by club:"]
  ++ (entry ← fixtures_by_club;
      entry.1 :: club_lines entry.1 (sorted_by_date entry.2) None)
  ++ [String "010" "Fixtures by team:"]
  ++ (team ← sorted_by_team_key fixtures_by_team.*1;
      name team ::
      team_lines team
        (sorted_by_date (default [] (dict_get team fixtures_by_team))) None).
End print_fixtures.

(** Two teams of one club in one division, and a third team. *)
Definition harrow_1 : Team := {| division := 2; club := "Harrow"; index := 1 |}.
Definition harrow_2 : Team := {| division := 2; club := "Harrow"; index := 2 |}.
Definition ealing_1 : Team := {| division := 2; club := "Ealing"; index := 1 |}.

Definition derby : ScheduledFixture :=
  {| fixture := {| home_team := harrow_1; away_team := harrow_2 |}; date := 10 |}.
Definition visit : ScheduledFixture :=
  {| fixture := {| home_team := ealing_1; away_team := harrow_1 |}; date := 3 |}.

(** The number of values filed in a dictionary of lists, each weighed by
    [f] under its key. *)
Definition filed_weight {K A : Type} (f : K -> A -> nat)
    (d : list (K * list A)) : nat :=
  sum_list_with (fun e => sum_list_with (f e.1) e.2) d.

(** * Properties of [date_windows] *)

Section date_windows_facts.
Implicit Types (d a b x : Date) (w : window) (dates rest : list Date).

Lemma window_from_incl d rest n w : w ⊆ window_from d rest n w.
Proof.
  revert w. induction rest as [|dj rest IH]; intros w; simpl; [done|].
  case_decide; [|done]. etrans; [|apply IH]. set_solver.
Qed.

Lemma window_from_elem d rest n w x :
  x ∈ window_from d rest n w -> x ∈ w \/ (x ∈ rest /\ x - d <= n).
Proof.
  revert w. induction rest as [|dj rest IH]; intros w; simpl; [auto|].
  case_decide as Hle; [|auto].
  intros [Hx | [Hx Hn]]%IH.
  - apply elem_of_union in Hx as [->%elem_of_singleton | Hx]; [|auto].
    right. split; [left | done].
  - right. split; [by right | done].
Qed.

(** On an ascending list the loop may stop at the first date beyond the
    window: no later date is within it. *)
Lemma window_from_complete d rest n w x :
  StronglySorted Z.le rest -> x ∈ rest -> x - d <= n ->
  x ∈ window_from d rest n w.
Proof.
  intros Hs. revert w.
  induction Hs as [|dj rest Hs IH Hall]; intros w Hx Hn; simpl.
  - by apply elem_of_nil in Hx.
  - apply elem_of_cons in Hx as [-> | Hx].
    + rewrite decide_True by done.
      apply window_from_incl. set_solver.
    + rewrite Forall_forall in Hall. specialize (Hall x Hx).
      rewrite decide_True by lia. by apply IH.
Qed.

(** Each anchored window holds its anchor and only input dates at most
    [n] days after the anchor. *)
Lemma anchored_windows_elem dates n w :
  StronglySorted Z.le dates -> w ∈ anchored_windows dates n ->
  exists d, d ∈ dates /\ d ∈ w /\
    forall x, x ∈ w -> x ∈ dates /\ d <= x /\ (x = d \/ x - d <= n).
Proof.
  induction 1 as [|d rest Hs IH Hall]; simpl; intros Hw.
  - by apply elem_of_nil in Hw.
  - apply elem_of_cons in Hw as [-> | Hw].
    + exists d. split; [left|]. split.
      { apply window_from_incl. set_solver. }
      intros x [->%elem_of_singleton | [Hx Hn]]%window_from_elem.
      * split; [left | lia].
      * rewrite Forall_forall in Hall. specialize (Hall x Hx).
        split; [by right | lia].
    + destruct (IH Hw) as (d' & Hd' & Hin & Hall').
      exists d'. split; [by right|]. split; [done|].
      intros x Hx. destruct (Hall' x Hx) as (? & ? & ?).
      split; [by right | done].
Qed.

Lemma anchored_windows_cover dates n a b :
  StronglySorted Z.le dates -> a ∈ dates -> b ∈ dates ->
  a <= b -> b - a <= n ->
  exists w, w ∈ anchored_windows dates n /\ a ∈ w /\ b ∈ w.
Proof.
  induction 1 as [|d rest Hs IH Hall]; simpl; intros Ha Hb Hab Hn.
  - by apply elem_of_nil in Ha.
  - rewrite Forall_forall in Hall.
    assert (Hhead : forall y, y ∈ d :: rest -> d <= y -> y - d <= n ->
              y ∈ window_from d rest n {[d]}).
    { intros y [-> | Hy]%elem_of_cons ? ?.
      - apply window_from_incl. set_solver.
      - by apply window_from_complete. }
    apply elem_of_cons in Ha as [-> | Ha].
    + exists (window_from d rest n {[d]}).
      split; [left|]. split; apply Hhead; try done; try lia. left.
    + apply elem_of_cons in Hb as [-> | Hb].
      * pose proof (Hall a Ha). assert (a = d) as -> by lia.
        exists (window_from d rest n {[d]}).
        split; [left|]. split; apply Hhead; try lia; left.
      * destruct (IH Ha Hb Hab Hn) as (w & Hw & ? & ?).
        exists w. split; [by right | done].
Qed.

Lemma insert_by_len_perm w (l : list window) : insert_by_len w l ≡ₚ w :: l.
Proof.
  induction l as [|w' l IH]; simpl; [done|].
  case_decide; [done|]. rewrite IH. apply Permutation_swap.
Qed.

Lemma insert_by_len_sorted w (l : list window) :
  StronglySorted len_ge l -> StronglySorted len_ge (insert_by_len w l).
Proof.
  induction 1 as [|w' l Hs IH Hall]; simpl.
  - repeat constructor.
  - case_decide as Hlt.
    + constructor; [by constructor|].
      constructor; [unfold len_ge; lia|].
      eapply Forall_impl; [exact Hall|]. unfold len_ge. intros; lia.
    + constructor; [done|].
      rewrite insert_by_len_perm. constructor; [unfold len_ge; lia | done].
Qed.

Lemma sort_by_len_desc_spec (l : list window) :
  sort_by_len_desc l ≡ₚ l /\ StronglySorted len_ge (sort_by_len_desc l).
Proof.
  unfold sort_by_len_desc.
  cut (forall acc, StronglySorted len_ge acc ->
         fold_left (fun acc w => insert_by_len w acc) l acc ≡ₚ acc ++ l /\
         StronglySorted len_ge (fold_left (fun acc w => insert_by_len w acc) l acc)).
  { intros Hc. apply (Hc []). constructor. }
  induction l as [|w l IH]; intros acc Hacc; simpl.
  - by rewrite app_nil_r.
  - destruct (IH (insert_by_len w acc)) as [Hp Hs].
    { by apply insert_by_len_sorted. }
    split; [|done]. rewrite Hp, insert_by_len_perm.
    simpl. apply Permutation_middle.
Qed.

Lemma keep_window_fold (l acc : list window) :
  let r := fold_left keep_window l acc in
  (forall w, w ∈ r -> w ∈ acc \/ w ∈ l) /\
  (forall w, w ∈ acc \/ w ∈ l -> exists w', w' ∈ r /\ w ⊆ w').
Proof.
  revert acc. induction l as [|w0 l IH]; intros acc; simpl.
  - split; [auto|]. intros w [Hw | Hw]; [by exists w|].
    by apply elem_of_nil in Hw.
  - destruct (IH (keep_window acc w0)) as [IH1 IH2]. split.
    + intros w Hw. destruct (IH1 w Hw) as [Hk | Hk]; [|right; by right].
      unfold keep_window in Hk. case_decide; [by left|].
      apply elem_of_app in Hk as [Hk | Hk]; [by left|].
      apply list_elem_of_singleton in Hk as ->. right; left.
    + assert (Hacc : forall w, w ∈ acc -> w ∈ keep_window acc w0).
      { intros w Hw. unfold keep_window. case_decide; [done|].
        apply elem_of_app; by left. }
      intros w [Hw | Hw].
      * apply IH2. left. by apply Hacc.
      * apply elem_of_cons in Hw as [-> | Hw]; [|apply IH2; by right].
        unfold keep_window at 1 in IH2. unfold keep_window in Hacc.
        case_decide as Hex.
        -- apply Exists_exists in Hex as (w' & Hw' & Hsub).
           destruct (IH2 w') as (w'' & ? & ?); [by left|].
           exists w''. split; [done | by etrans].
        -- apply IH2. left. apply elem_of_app; right. left.
Qed.

Lemma keep_window_subset_free (l acc : list window) :
  StronglySorted len_ge l ->
  subset_free acc ->
  (forall w1 w2, w1 ∈ acc -> w2 ∈ l -> len_ge w1 w2) ->
  subset_free (fold_left keep_window l acc).
Proof.
  intros Hs. revert acc.
  induction Hs as [|w0 l Hs IH Hall]; intros acc Hfree Hge; simpl; [done|].
  rewrite Forall_forall in Hall.
  apply IH; unfold keep_window; case_decide as Hex.
  - done.
  - intros i j w1 w2 Hi Hj Hij Hsub.
    assert (Hnot : forall w', w' ∈ acc -> ¬ w0 ⊆ w').
    { intros w' Hw' Hsub'. apply Hex, Exists_exists. eauto. }
    apply lookup_snoc_Some in Hi as [[Hli Hi] | [Hli <-]];
      apply lookup_snoc_Some in Hj as [[Hlj Hj] | [Hlj <-]].
    + by apply (Hfree i j w1 w2).
    + assert (w1 ∈ acc) as Hin by (apply list_elem_of_lookup; eauto).
      assert (w1 = w0) as ->.
      { apply set_subseteq_size_eq; [done|]. apply (Hge w1 w0 Hin). left. }
      by apply (Hnot w0 Hin).
    + apply (Hnot w2); [|done]. apply list_elem_of_lookup; eauto.
    + lia.
  - intros w1 w2 Hw1 Hw2. apply Hge; [done | by right].
  - intros w1 w2 [Hw1 | Hw1]%elem_of_app Hw2.
    + apply Hge; [done | by right].
    + apply list_elem_of_singleton in Hw1 as ->. by apply Hall.
Qed.

Lemma sorted_spec dates :
  sorted dates ≡ₚ dates /\ StronglySorted Z.le (sorted dates).
Proof.
  split; [apply merge_sort_Permutation|].
  apply StronglySorted_merge_sort; apply _.
Qed.

(** The windows returned are anchored windows of the sorted dates, and
    every anchored window lies inside a returned one. *)
Lemma date_windows_anchored dates n :
  (forall w, w ∈ date_windows dates n -> w ∈ anchored_windows (sorted dates) n) /\
  (forall w, w ∈ anchored_windows (sorted dates) n ->
     exists w', w' ∈ date_windows dates n /\ w ⊆ w').
Proof.
  unfold date_windows.
  destruct (sort_by_len_desc_spec (anchored_windows (sorted dates) n)) as [Hp _].
  destruct (keep_window_fold
              (sort_by_len_desc (anchored_windows (sorted dates) n)) []) as [H1 H2].
  split.
  - intros w Hw. destruct (H1 w Hw) as [Hn | Hn].
    + by apply elem_of_nil in Hn.
    + by rewrite <- Hp.
  - intros w Hw. apply H2. right. by rewrite Hp.
Qed.

Lemma date_windows_pair dates n a b :
  a ∈ dates -> b ∈ dates -> a <= b -> b - a <= n ->
  exists w, w ∈ date_windows dates n /\ a ∈ w /\ b ∈ w.
Proof.
  intros Ha Hb Hab Hn.
  destruct (sorted_spec dates) as [Hp Hs].
  destruct (anchored_windows_cover (sorted dates) n a b) as (w & Hw & ? & ?);
    try done; try by rewrite Hp.
  destruct (date_windows_anchored dates n) as [_ H2].
  destruct (H2 w Hw) as (w' & ? & ?).
  exists w'. set_solver.
Qed.

Lemma anchored_windows_one dates n a :
  a ∈ dates -> exists w, w ∈ anchored_windows dates n /\ a ∈ w.
Proof.
  induction dates as [|d rest IH]; simpl; intros Ha.
  - by apply elem_of_nil in Ha.
  - apply elem_of_cons in Ha as [-> | Ha].
    + exists (window_from d rest n {[d]}). split; [left|].
      apply window_from_incl. by apply elem_of_singleton.
    + destruct (IH Ha) as (w & ? & ?). exists w. split; [by right | done].
Qed.

(** Every date is in a returned window, whatever the window size. *)
Lemma date_windows_one dates n a :
  a ∈ dates -> exists w, w ∈ date_windows dates n /\ a ∈ w.
Proof.
  intros Ha. destruct (sorted_spec dates) as [Hp _].
  destruct (anchored_windows_one (sorted dates) n a) as (w & Hw & ?);
    [by rewrite Hp|].
  destruct (date_windows_anchored dates n) as [_ H2].
  destruct (H2 w Hw) as (w' & ? & Hsub).
  exists w'. split; [done | by apply Hsub].
Qed.

Lemma date_windows_subset_free dates n : subset_free (date_windows dates n).
Proof.
  unfold date_windows.
  apply keep_window_subset_free.
  - apply sort_by_len_desc_spec.
  - intros i j w1 w2 Hi. by rewrite lookup_nil in Hi.
  - intros w1 w2 Hw1. by apply elem_of_nil in Hw1.
Qed.
End date_windows_facts.

(** ** The unit tests of [TestDateWindows] *)

Example test_basic_windows :
  date_windows [1; 3; 8] 5 = [ {[1; 3]}; {[3; 8]} ].
Proof. vm_compute. reflexivity. Qed.

Example test_unsorted_input :
  date_windows [8; 1; 3] 5 = [ {[1; 3]}; {[3; 8]} ].
Proof. vm_compute. reflexivity. Qed.

Example test_window_size_zero :
  date_windows [1; 2] 0 = [ {[1]}; {[2]} ].
Proof. vm_compute. reflexivity. Qed.

Example test_subset_removal :
  date_windows [1; 2; 3; 4] 10 = [ {[1; 2; 3; 4]} ].
Proof. vm_compute. reflexivity. Qed.

Lemma size_two (X : gset Z) (a b : Z) :
  a ∈ X -> b ∈ X -> a ≠ b -> (2 <= size X)%nat.
Proof.
  intros Ha Hb Hab.
  assert (Hsub : ({[a]} ∪ {[b]} : gset Z) ⊆ X) by set_solver.
  apply subseteq_size in Hsub.
  rewrite size_union, !size_singleton in Hsub by set_solver. done.
Qed.

(** C6: for every collection of dates and non-negative [window_days], every
    input date appears in a returned window, every returned window spans
    at most [window_days], and no returned window is a subset of another
    returned window. *)
Theorem date_windows_contract (dates : list Date) (window_days : Z) :
  0 <= window_days ->
  (forall d, d ∈ dates -> exists w, w ∈ date_windows dates window_days /\ d ∈ w) /\
  (forall w, w ∈ date_windows dates window_days -> span_le w window_days) /\
  subset_free (date_windows dates window_days).
Proof.
  intros Hn. split; [|split].
  - intros d Hd.
    destruct (date_windows_pair dates window_days d d) as (w & ? & ? & _);
      try done; try lia.
    by exists w.
  - intros w Hw a b Ha Hb.
    destruct (sorted_spec dates) as [_ Hs].
    destruct (date_windows_anchored dates window_days) as [H1 _].
    destruct (anchored_windows_elem _ _ _ Hs (H1 w Hw)) as (d & _ & _ & Hall).
    destruct (Hall a Ha) as (_ & ? & ?), (Hall b Hb) as (_ & ? & ?). lia.
  - apply date_windows_subset_free.
Qed.

Lemma date_windows_contract_witness :
  (forall d, d ∈ [1; 3; 8] -> exists w, w ∈ date_windows [1; 3; 8] 5 /\ d ∈ w) /\
  (forall w, w ∈ date_windows [1; 3; 8] 5 -> span_le w 5) /\
  subset_free (date_windows [1; 3; 8] 5).
Proof. apply (date_windows_contract [1; 3; 8] 5). lia. Defined.

(** C5: for non-negative [window_days], two input dates at most
    [window_days] apart lie together in some returned window; hence a
    selection with at most one date in every returned window has no two
    dates closer than [window_days + 1]. *)
Theorem date_windows_separation (dates : list Date) (window_days : Z) :
  0 <= window_days ->
  (forall a b, a ∈ dates -> b ∈ dates -> Z.abs (b - a) <= window_days ->
     exists w, w ∈ date_windows dates window_days /\ a ∈ w /\ b ∈ w) /\
  (forall selected : gset Z,
     selected ⊆ list_to_set dates ->
     (forall w, w ∈ date_windows dates window_days ->
        (size (selected ∩ w) <= 1)%nat) ->
     forall a b, a ∈ selected -> b ∈ selected -> a ≠ b ->
       window_days + 1 <= Z.abs (b - a)).
Proof.
  intros _.
  assert (Hpair : forall a b, a ∈ dates -> b ∈ dates ->
            Z.abs (b - a) <= window_days ->
            exists w, w ∈ date_windows dates window_days /\ a ∈ w /\ b ∈ w).
  { intros a b Ha Hb Hab. destruct (Z.le_ge_cases a b).
    - apply date_windows_pair; try done; lia.
    - destruct (date_windows_pair dates window_days b a) as (w & ? & ? & ?);
        try done; try lia.
      by exists w. }
  split; [exact Hpair|].
  intros selected Hsel Hone a b Ha Hb Hab.
  destruct (Z_lt_le_dec (Z.abs (b - a)) (window_days + 1)) as [Hlt|]; [|done].
  destruct (Hpair a b) as (w & Hw & Haw & Hbw).
  { apply Hsel in Ha. by apply elem_of_list_to_set in Ha. }
  { apply Hsel in Hb. by apply elem_of_list_to_set in Hb. }
  { lia. }
  specialize (Hone w Hw).
  assert (2 <= size (selected ∩ w))%nat.
  { apply (size_two _ a b); [by apply elem_of_intersection..|done]. }
  lia.
Qed.

Lemma date_windows_separation_witness :
  (forall a b, a ∈ [1; 3; 8] -> b ∈ [1; 3; 8] -> Z.abs (b - a) <= 5 ->
     exists w, w ∈ date_windows [1; 3; 8] 5 /\ a ∈ w /\ b ∈ w) /\
  (forall selected : gset Z,
     selected ⊆ list_to_set [1; 3; 8] ->
     (forall w, w ∈ date_windows [1; 3; 8] 5 -> (size (selected ∩ w) <= 1)%nat) ->
     forall a b, a ∈ selected -> b ∈ selected -> a ≠ b -> 5 + 1 <= Z.abs (b - a)).
Proof. apply (date_windows_separation [1; 3; 8] 5). lia. Defined.

(** * The reference engine meets the contract *)

Lemma sum_vars_ext (f g : var -> bool) (vs : list var) :
  (forall v, v ∈ vs -> f v = g v) -> sum_vars f vs = sum_vars g vs.
Proof.
  induction vs as [|v vs IH]; intros Hfg; simpl; [done|].
  rewrite (Hfg v) by left. rewrite IH; [done|]. intros; apply Hfg; by right.
Qed.

Lemma satisfies_spec (value : var -> bool) (m : CpModel) :
  satisfies value m = true <->
  forall c, c ∈ constraints m -> holds value c = true.
Proof.
  unfold satisfies. rewrite forallb_forall.
  split; intros H c Hc; apply H; by apply list_elem_of_In.
Qed.

Lemma satisfies_ext (f g : var -> bool) (m : CpModel) :
  (forall c v, c ∈ constraints m -> v ∈ c_vars c -> f v = g v) ->
  satisfies f m = satisfies g m.
Proof.
  intros Hfg. unfold satisfies.
  induction (constraints m) as [|c cs IH] in Hfg |- *; simpl; [done|].
  rewrite IH by (intros; eapply Hfg; [by right | done]).
  f_equal. unfold holds.
  rewrite (sum_vars_ext f g) by (intros; eapply Hfg; [by left | done]). done.
Qed.

Lemma assignments_elem (l : list bool) : l ∈ assignments (length l).
Proof.
  induction l as [|b l IH]; simpl; [left|].
  apply list_elem_of_bind. exists l. split; [|done].
  destruct b; [right; left | left].
Qed.

Lemma valuation_tabulate (value : var -> bool) (n v : nat) :
  (v < n)%nat -> valuation (value <$> seq 0 n) v = value v.
Proof.
  intros Hv. unfold valuation.
  by rewrite list_lookup_fmap, lookup_seq_lt.
Qed.

Lemma var_bound_spec (m : CpModel) (c : constraint) (v : var) :
  c ∈ constraints m -> v ∈ c_vars c -> (v < var_bound m)%nat.
Proof.
  intros Hc Hv. unfold var_bound.
  assert (S v ∈ map S (c ← constraints m; c_vars c)) as Hin.
  { apply list_elem_of_fmap. exists v. split; [done|].
    apply list_elem_of_bind. eauto. }
  apply max_list_elem_of_le in Hin. lia.
Qed.

Lemma exhaustive_sound : engine_sound exhaustive.
Proof.
  intros m. unfold exhaustive.
  destruct (list_find _ _) as [[i l]|] eqn:Hfind; simpl; [|done].
  intros _. by apply list_find_Some in Hfind as (_ & ? & _).
Qed.

Lemma exhaustive_complete : engine_complete exhaustive.
Proof.
  intros m value Hsat. unfold exhaustive.
  destruct (list_find _ _) as [[i l]|] eqn:Hfind; simpl; [done|].
  apply list_find_None in Hfind. rewrite Forall_forall in Hfind.
  set (n := Nat.max (num_vars m) (var_bound m)) in *.
  exfalso. apply (Hfind (value <$> seq 0 n)).
  - replace n with (length (value <$> seq 0 n)) at 2
      by (by rewrite length_fmap, length_seq).
    apply assignments_elem.
  - rewrite <- Hsat. apply satisfies_ext. intros c v Hc Hv.
    apply valuation_tabulate. pose proof (var_bound_spec m c v Hc Hv). lia.
Qed.

(** * The loops of [solve] and the list of candidates *)

Lemma for_each_app {A S : Type} (l1 l2 : list A) (body : A -> S -> result S) s :
  for_each (l1 ++ l2) body s =
  match for_each l1 body s with
  | Ok s' => for_each l2 body s'
  | Raise e => Raise e
  end.
Proof.
  revert s. induction l1 as [|x l1 IH]; intros s; simpl; [done|].
  destruct (body x s); [apply IH | done].
Qed.

(** Two nested loops are one loop over the concatenation. *)
Lemma for_each_bind {A B S : Type} (l : list A) (f : A -> list B)
    (body : B -> S -> result S) s :
  for_each l (fun x => for_each (f x) body) s = for_each (l ≫= f) body s.
Proof.
  revert s. induction l as [|x l IH]; intros s; simpl; [done|].
  rewrite for_each_app. destruct (for_each (f x) body s); [apply IH | done].
Qed.

Lemma add_candidates_snoc cs c s :
  add_candidates (cs ++ [c]) s =
  add_candidate (c_home c) (c_away c) (c_date c) (add_candidates cs s).
Proof. unfold add_candidates. by rewrite fold_left_app. Qed.

Lemma add_candidates_app cs1 cs2 s :
  add_candidates (cs1 ++ cs2) s = add_candidates cs2 (add_candidates cs1 s).
Proof. unfold add_candidates. by rewrite fold_left_app. Qed.

(** The loop over the home dates of one fixture. *)
Lemma dates_loop (home away : Team) (blocked dates : list Date) s :
  for_each dates
    (fun match_date s =>
       if decide (match_date ∈ blocked) then Ok s
       else Ok (add_candidate home away match_date s)) s =
  Ok (add_candidates
        (map (fun d => {| c_home := home; c_away := away; c_date := d |})
           (filter (fun d => d ∉ blocked) dates)) s).
Proof.
  revert s. induction dates as [|d dates IH]; intros s; simpl; [done|].
  rewrite filter_cons. destruct (decide (d ∈ blocked)) as [Hin|Hout].
  - rewrite decide_False by auto. apply IH.
  - rewrite decide_True by done. rewrite IH. done.
Qed.

Lemma build_fixture_spec params (pair : Team * Team) s :
  build_fixture params pair s =
  match home_dates params !! club pair.1 with
  | None => Raise (KeyError (club pair.1))
  | Some _ =>
      Ok (add_candidates
            (map (fun d => {| c_home := pair.1; c_away := pair.2; c_date := d |})
               (eligible_dates params pair.1 pair.2)) s)
  end.
Proof.
  destruct pair as [home away]. unfold build_fixture, eligible_dates. simpl.
  destruct (home_dates params !! club home) as [dates|]; [|done].
  apply dates_loop.
Qed.

Lemma build_variables_flat params :
  build_variables params =
  for_each (required_fixtures params) (build_fixture params) initial_state.
Proof. unfold build_variables, required_fixtures. apply for_each_bind. Qed.

Lemma candidates_of_cons params pair pairs :
  candidates_of params (pair :: pairs) =
  map (fun d => {| c_home := pair.1; c_away := pair.2; c_date := d |})
    (eligible_dates params pair.1 pair.2) ++ candidates_of params pairs.
Proof. reflexivity. Qed.

Lemma fixtures_loop params (pairs : list (Team * Team)) s :
  match for_each pairs (build_fixture params) s with
  | Ok s' =>
      s' = add_candidates (candidates_of params pairs) s /\
      Forall (fun pair => is_Some (home_dates params !! club pair.1)) pairs
  | Raise e =>
      exists pair, pair ∈ pairs /\ home_dates params !! club pair.1 = None /\
        e = KeyError (club pair.1)
  end.
Proof.
  revert s. induction pairs as [|pair pairs IH]; intros s; cbn [for_each].
  - split; [done | constructor].
  - rewrite build_fixture_spec.
    destruct (home_dates params !! club pair.1) as [dates|] eqn:Hdates.
    + specialize (IH (add_candidates
        (map (fun d => {| c_home := pair.1; c_away := pair.2; c_date := d |})
           (eligible_dates params pair.1 pair.2)) s)).
      destruct (for_each pairs _ _) as [s'|e].
      * destruct IH as [-> Hall]. split.
        -- by rewrite candidates_of_cons, add_candidates_app.
        -- constructor; [by rewrite Hdates | done].
      * destruct IH as (p & Hp & Hnone & ->).
        exists p. split; [by right | done].
    + exists pair. split; [left | done].
Qed.

Lemma build_variables_spec params :
  match build_variables params with
  | Ok s =>
      s = add_candidates (candidates params) initial_state /\
      Forall (fun pair => is_Some (home_dates params !! club pair.1))
        (required_fixtures params)
  | Raise e =>
      exists pair, pair ∈ required_fixtures params /\
        home_dates params !! club pair.1 = None /\ e = KeyError (club pair.1)
  end.
Proof. rewrite build_variables_flat. apply fixtures_loop. Qed.

(** * The indices built by [solve] *)

Section dict_facts.
Context {K V : Type} `{EqDecision K}.

Lemma dict_get_update (k k' : K) (f : V -> V) (dflt : V) (d : list (K * V)) :
  dict_get k (dict_update k' f dflt d) =
  if decide (k = k') then Some (f (default dflt (dict_get k' d)))
  else dict_get k d.
Proof.
  induction d as [|[k0 v0] d IH]; simpl.
  - by case_decide.
  - destruct (decide (k' = k0)) as [->|Hne]; simpl.
    + destruct (decide (k = k0)); [done|done].
    + rewrite IH. destruct (decide (k = k0)) as [->|]; [|done].
      by rewrite decide_False by done.
Qed.

Lemma dict_get_elem (k : K) (v : V) (d : list (K * V)) :
  dict_get k d = Some v -> (k, v) ∈ d.
Proof.
  induction d as [|[k0 v0] d IH]; simpl; [done|].
  case_decide as Hk; [intros [= ->]; subst; left | intros; right; auto].
Qed.

Lemma dict_get_keys (k : K) (d : list (K * V)) :
  is_Some (dict_get k d) <-> k ∈ d.*1.
Proof.
  induction d as [|[k0 v0] d IH]; simpl.
  - split; [by intros [? ?] | by intros ?%elem_of_nil].
  - rewrite elem_of_cons. case_decide as Hk; [naive_solver|].
    rewrite IH. naive_solver.
Qed.
End dict_facts.

Lemma entry_of_default {A} (l : list A) : default [] (entry_of l) = l.
Proof. by destruct l. Qed.

Lemma entry_of_snoc {A} (l : list A) x : entry_of (l ++ [x]) = Some (l ++ [x]).
Proof. by destruct l. Qed.

Lemma entry_of_Some {A} (l l' : list A) : entry_of l = Some l' -> l' = l /\ l ≠ [].
Proof. destruct l; [done|]. by intros [= <-]. Qed.

Lemma numbered_snoc cs c : numbered (cs ++ [c]) = numbered cs ++ [(length cs, c)].
Proof. unfold numbered. rewrite imap_app. simpl. by rewrite Nat.add_0_r. Qed.

Lemma vars_where_snoc (P : candidate -> Prop) `{!forall c, Decision (P c)} ics i c :
  vars_where P (ics ++ [(i, c)]) =
  vars_where P ics ++ (if decide (P c) then [i] else []).
Proof.
  unfold vars_where. rewrite filter_app, fmap_app. f_equal.
  rewrite filter_cons, filter_nil. simpl. by case_decide.
Qed.

(** Appending a variable under the key of its candidate. *)
Lemma index_step {K} `{EqDecision K} (key : candidate -> K)
    (d : list (K * list var)) ics i c k :
  dict_get k d = entry_of (vars_where (fun c => key c = k) ics) ->
  dict_get k (dict_append (key c) i d) =
  entry_of (vars_where (fun c => key c = k) (ics ++ [(i, c)])).
Proof.
  intros Hd. unfold dict_append. rewrite dict_get_update, vars_where_snoc.
  destruct (decide (k = key c)) as [->|Hne].
  - rewrite decide_True by done. by rewrite Hd, entry_of_default, entry_of_snoc.
  - rewrite decide_False by done. by rewrite app_nil_r.
Qed.

Lemma team_index_step (by_team : list (Team * list (Date * list var)))
    (t t' : Team) (d d' : Date) (v : var) (l : list var) :
  dict_get t by_team ≫= dict_get d = entry_of l ->
  dict_get t (dict_update t' (dict_append d' v) [] by_team) ≫= dict_get d =
  entry_of (l ++ (if decide (t' = t /\ d' = d) then [v] else [])).
Proof.
  intros Hl. rewrite dict_get_update.
  destruct (decide (t = t')) as [->|Hne]; simpl.
  - unfold dict_append. rewrite dict_get_update.
    destruct (decide (d = d')) as [->|Hne].
    + rewrite decide_True by done. rewrite <- entry_of_snoc. f_equal; f_equal.
      rewrite <- (entry_of_default l), <- Hl.
      by destruct (dict_get t' by_team).
    + rewrite decide_False by naive_solver. rewrite app_nil_r, <- Hl.
      by destruct (dict_get t' by_team).
  - rewrite decide_False by naive_solver. by rewrite app_nil_r.
Qed.

Lemma extract_items_step (value : var -> bool) items (f : Fixture) (md : Date) v :
  extract_items value (dict_append (f, md) v items) ≡ₚ
  extract_items value items ++
  (if value v then [ {| fixture := f; date := md |} ] else []).
Proof.
  unfold dict_append.
  induction items as [|[[f0 md0] vs] items IH]; simpl.
  - by rewrite !app_nil_r.
  - destruct (decide ((f, md) = (f0, md0))) as [[= -> ->]|Hne]; simpl.
    + rewrite bind_app. simpl. rewrite app_nil_r.
      rewrite <- !(assoc_L (++)). f_equiv. apply Permutation_app_comm.
    + unfold extract_items in IH. rewrite IH. by rewrite (assoc_L (++)).
Qed.

Lemma team_date_vars_snoc t d ics i c :
  team_date_vars t d (ics ++ [(i, c)]) =
  (team_date_vars t d ics ++
   (if decide (c_home c = t /\ c_date c = d) then [i] else [])) ++
  (if decide (c_away c = t /\ c_date c = d) then [i] else []).
Proof.
  unfold team_date_vars. rewrite bind_app, bind_singleton. simpl.
  by rewrite (assoc_L (++)).
Qed.

(** The state after the candidates [cs] have been added: what the model
    and each index hold. *)
Lemma indices_spec (cs : list candidate) :
  let s := add_candidates cs initial_state in
  let ics := numbered cs in
  model s = {| num_vars := length cs; constraints := [] |} /\
  (forall f, dict_get f (vars_by_fixture s) =
     entry_of (vars_where (fun c => c_fixture c = f) ics)) /\
  (forall t d, dict_get t (vars_by_team_date s) ≫= dict_get d =
     entry_of (team_date_vars t d ics)) /\
  (forall k, dict_get k (vars_by_club_home_date s) =
     entry_of (vars_where (fun c => (club (c_home c), c_date c) = k) ics)) /\
  (forall value, extract value s ≡ₚ
     ic ← ics; if value ic.1 then [c_scheduled ic.2] else []).
Proof.
  induction cs as [|c cs IH] using rev_ind; simpl.
  - repeat split; try done.
  - destruct IH as (Hm & Hf & Ht & Hc & He).
    rewrite add_candidates_snoc, numbered_snoc.
    set (s := add_candidates cs initial_state) in *.
    unfold add_candidate. rewrite Hm. simpl. repeat split.
    + by rewrite length_app, Nat.add_comm.
    + intros f. by apply (index_step c_fixture).
    + intros t d. rewrite team_date_vars_snoc.
      by apply team_index_step, team_index_step.
    + intros k. by apply (index_step (fun c => (club (c_home c), c_date c))).
    + intros value. unfold extract. simpl.
      rewrite (extract_items_step value _ (c_fixture c) (c_date c)).
      rewrite bind_app, bind_singleton. simpl. f_equiv; [apply He | done].
Qed.

(** * The model handed to the engine *)

Lemma add_all_spec (cs : list constraint) (m : CpModel) :
  fold_left (fun m c => add c m) cs m =
  {| num_vars := num_vars m; constraints := constraints m ++ cs |}.
Proof.
  revert m. induction cs as [|c cs IH]; intros m; simpl.
  - rewrite app_nil_r. by destruct m.
  - rewrite IH. simpl. by rewrite <- (assoc_L (++)).
Qed.

Lemma final_model_constraints params s :
  constraints (final_model params s) =
  constraints (model s) ++ coverage_constraints s ++
  rest_constraints params s ++ capacity_constraints params s.
Proof.
  unfold final_model. rewrite !add_all_spec. simpl.
  by rewrite <- !(assoc_L (++)).
Qed.

(** What a successful run of [solve] went through. *)
Lemma solve_Ok (Solve : engine) params result :
  solve Solve params = Ok result ->
  exists s,
    build_variables params = Ok s /\
    found_solution (Solve (final_model params s)).1 = true /\
    result = extract (Solve (final_model params s)).2 s.
Proof.
  unfold solve. destruct (build_variables params) as [s|e]; [|done].
  destruct (Solve (final_model params s)) as [status value] eqn:HS.
  destruct (found_solution status) eqn:Hfound; [|done].
  intros [= <-]. exists s. rewrite HS. simpl. repeat split; done.
Qed.

(** * Sums of variables *)

Lemma sum_vars_nonneg value vs : 0 <= sum_vars value vs.
Proof.
  induction vs as [|v vs IH]; simpl; [done|].
  unfold bool_to_Z. destruct (value v); lia.
Qed.

Lemma sum_vars_cons value v vs :
  sum_vars value (v :: vs) = bool_to_Z (value v) + sum_vars value vs.
Proof. reflexivity. Qed.

Lemma sum_vars_app value vs1 vs2 :
  sum_vars value (vs1 ++ vs2) = sum_vars value vs1 + sum_vars value vs2.
Proof. induction vs1 as [|v vs1 IH]; simpl; [done|]. rewrite IH. lia. Qed.

Lemma sum_vars_one value vs v :
  v ∈ vs -> value v = true -> 1 <= sum_vars value vs.
Proof.
  induction vs as [|v0 vs IH]; simpl; intros Hin Hv.
  - by apply elem_of_nil in Hin.
  - pose proof (sum_vars_nonneg value vs).
    apply elem_of_cons in Hin as [<- | Hin].
    + rewrite Hv. simpl. lia.
    + specialize (IH Hin Hv). unfold bool_to_Z. destruct (value v0); lia.
Qed.

Lemma sum_vars_two value vs v1 v2 :
  v1 ∈ vs -> v2 ∈ vs -> v1 ≠ v2 -> value v1 = true -> value v2 = true ->
  2 <= sum_vars value vs.
Proof.
  induction vs as [|v0 vs IH]; simpl; intros H1 H2 Hne Hv1 Hv2.
  - by apply elem_of_nil in H1.
  - apply elem_of_cons in H1 as [<- | H1]; apply elem_of_cons in H2 as [<- | H2].
    + done.
    + pose proof (sum_vars_one value vs v2 H2 Hv2). rewrite Hv1. simpl. lia.
    + pose proof (sum_vars_one value vs v1 H1 Hv1). rewrite Hv2. simpl. lia.
    + specialize (IH H1 H2 Hne Hv1 Hv2). unfold bool_to_Z. destruct (value v0); lia.
Qed.

Lemma sum_vars_bind_ge {A} value (f : A -> list var) (l : list A) x :
  x ∈ l -> sum_vars value (f x) <= sum_vars value (l ≫= f).
Proof.
  induction l as [|y l IH]; intros Hx.
  - by apply elem_of_nil in Hx.
  - rewrite bind_cons, sum_vars_app.
    pose proof (sum_vars_nonneg value (f y)).
    pose proof (sum_vars_nonneg value (l ≫= f)).
    apply elem_of_cons in Hx as [-> | Hx]; [lia|].
    specialize (IH Hx). lia.
Qed.

Lemma sum_vars_pos value vs :
  1 <= sum_vars value vs -> exists v, v ∈ vs /\ value v = true.
Proof.
  induction vs as [|v vs IH]; simpl; [lia|]. intros Hsum.
  destruct (value v) eqn:Hv.
  - exists v. split; [left | done].
  - destruct IH as (v' & ? & ?); [simpl in Hsum; lia|].
    exists v'. split; [by right | done].
Qed.

(** The number of scheduled fixtures with a property is the sum of the
    variables of the candidates with that property. *)
Lemma count_scheduled (P : ScheduledFixture -> Prop) `{!forall sf, Decision (P sf)}
    (value : var -> bool) (ics : list (var * candidate)) :
  Z.of_nat (length (filter P
     (ic ← ics; if value ic.1 then [c_scheduled ic.2] else []))) =
  sum_vars value (vars_where (fun c => P (c_scheduled c)) ics).
Proof.
  unfold vars_where.
  induction ics as [|[i c] ics IH]; [done|].
  rewrite bind_cons, filter_app, length_app, Nat2Z.inj_add, IH.
  rewrite (filter_cons (fun ic => P (c_scheduled ic.2))).
  cbn [fst snd].
  destruct (value i) eqn:Hv.
  - rewrite filter_cons, filter_nil.
    destruct (decide (P (c_scheduled c))); cbn [length fmap list_fmap fst];
      rewrite ?sum_vars_cons, ?Hv; unfold bool_to_Z; lia.
  - rewrite filter_nil.
    destruct (decide (P (c_scheduled c))); cbn [length fmap list_fmap fst];
      rewrite ?sum_vars_cons, ?Hv; unfold bool_to_Z; lia.
Qed.

Lemma vars_where_ext (P Q : candidate -> Prop) `{!forall c, Decision (P c)}
    `{!forall c, Decision (Q c)} ics :
  (forall c, P c <-> Q c) -> vars_where P ics = vars_where Q ics.
Proof.
  intros HPQ. unfold vars_where. f_equal.
  induction ics as [|ic ics IH]; [done|].
  rewrite !filter_cons, IH.
  destruct (decide (P ic.2)), (decide (Q ic.2)); naive_solver.
Qed.

Lemma elem_of_vars_where (P : candidate -> Prop) `{!forall c, Decision (P c)} ics v :
  v ∈ vars_where P ics <-> exists c, (v, c) ∈ ics /\ P c.
Proof.
  unfold vars_where. rewrite list_elem_of_fmap. split.
  - intros ([i c] & -> & [HP Hin]%list_elem_of_filter). by exists c.
  - intros (c & Hin & HP). exists (v, c). split; [done|].
    by apply list_elem_of_filter.
Qed.

Lemma elem_of_team_date_vars t d ics v :
  v ∈ team_date_vars t d ics <->
  exists c, (v, c) ∈ ics /\ (c_home c = t \/ c_away c = t) /\ c_date c = d.
Proof.
  unfold team_date_vars. rewrite list_elem_of_bind. split.
  - intros ([i c] & Hv & Hin). simpl in Hv. exists c.
    apply elem_of_app in Hv as [Hv | Hv]; case_decide as Hd;
      try (by apply elem_of_nil in Hv);
      apply list_elem_of_singleton in Hv as ->; naive_solver.
  - intros (c & Hin & Ht & Hd). exists (v, c). split; [|done]. simpl.
    apply elem_of_app. destruct Ht as [Ht | Ht]; [left | right];
      rewrite decide_True by done; left.
Qed.

Lemma elem_of_numbered cs i c : (i, c) ∈ numbered cs <-> cs !! i = Some c.
Proof.
  unfold numbered. rewrite list_elem_of_lookup. split.
  - intros (j & Hj). rewrite list_lookup_imap in Hj.
    destruct (cs !! j) eqn:Hc; simplify_eq/=. done.
  - intros Hc. exists i. by rewrite list_lookup_imap, Hc.
Qed.

Lemma entry_of_nonempty {A} (l : list A) x : x ∈ l -> entry_of l = Some l.
Proof. destruct l; [by intros ?%elem_of_nil | done]. Qed.

Lemma holds_EqualTo value vs n :
  holds value {| c_vars := vs; c_op := EqualTo; c_rhs := n |} = true ->
  sum_vars value vs = n.
Proof. unfold holds. simpl. apply bool_decide_eq_true. Qed.

Lemma holds_AtMost value vs n :
  holds value {| c_vars := vs; c_op := AtMost; c_rhs := n |} = true ->
  sum_vars value vs <= n.
Proof. unfold holds. simpl. apply bool_decide_eq_true. Qed.

(** * What a returned schedule satisfies *)

(** The schedule is read off a valuation that meets the three families of
    constraints, stated here on the candidates. *)
Lemma solved_facts (Solve : engine) (Solve_sound : engine_sound Solve)
    (params : Parameters) (result : list ScheduledFixture)
    (solved : solve Solve params = Ok result) :
  let ics := numbered (candidates params) in
  exists value : var -> bool,
    result ≡ₚ (ic ← ics; if value ic.1 then [c_scheduled ic.2] else []) /\
    (forall f v, v ∈ vars_where (fun c => c_fixture c = f) ics ->
       sum_vars value (vars_where (fun c => c_fixture c = f) ics) = 1) /\
    (forall t d1 d2 v1 v2,
       v1 ∈ team_date_vars t d1 ics -> v2 ∈ team_date_vars t d2 ics ->
       v1 ≠ v2 -> value v1 = true -> value v2 = true ->
       min_gap_days params < Z.abs (d2 - d1)) /\
    (forall t d, sum_vars value (team_date_vars t d ics) <= 1) /\
    (forall k v,
       v ∈ vars_where (fun c => (club (c_home c), c_date c) = k) ics ->
       sum_vars value (vars_where (fun c => (club (c_home c), c_date c) = k) ics)
       <= max_concurrent_home_matches params) /\
    Forall (fun pair => is_Some (home_dates params !! club pair.1))
      (required_fixtures params).
Proof.
  intros ics.
  destruct (solve_Ok _ _ _ solved) as (s & Hbuild & Hfound & ->).
  pose proof (build_variables_spec params) as Hspec.
  rewrite Hbuild in Hspec. destruct Hspec as [-> Hkeys].
  set (s := add_candidates (candidates params) initial_state) in *.
  destruct (indices_spec (candidates params)) as (Hm & Hf & Ht & Hc & He).
  fold s ics in Hm, Hf, Ht, Hc, He.
  apply Solve_sound in Hfound.
  set (value := (Solve (final_model params s)).2) in *.
  rewrite satisfies_spec, final_model_constraints, Hm in Hfound. simpl in Hfound.
  exists value. split; [apply He|]. split; [|split; [|split; [|split; [|done]]]].
  - intros f v Hv. apply holds_EqualTo, Hfound.
    apply elem_of_app; left. unfold coverage_constraints.
    apply (list_elem_of_fmap_2
             (fun vs => {| c_vars := vs; c_op := EqualTo; c_rhs := 1 |})).
    apply list_elem_of_fmap.
    exists (f, vars_where (fun c => c_fixture c = f) ics). split; [done|].
    apply dict_get_elem. rewrite Hf. by eapply entry_of_nonempty.
  - intros t d1 d2 v1 v2 Hv1 Hv2 Hne Hval1 Hval2.
    destruct (Z_lt_le_dec (min_gap_days params) (Z.abs (d2 - d1))) as [|Hclose];
      [done|exfalso].
    pose proof (Ht t d1) as Hd1. pose proof (Ht t d2) as Hd2.
    rewrite (entry_of_nonempty _ _ Hv1) in Hd1.
    rewrite (entry_of_nonempty _ _ Hv2) in Hd2.
    destruct (dict_get t (vars_by_team_date s)) as [by_date|] eqn:Hteam; [|done].
    simpl in Hd1, Hd2.
    assert (exists w, w ∈ date_windows by_date.*1 (min_gap_days params) /\
              d1 ∈ w /\ d2 ∈ w) as (w & Hw & Hw1 & Hw2).
    { assert (d1 ∈ by_date.*1) by (apply dict_get_keys; eauto).
      assert (d2 ∈ by_date.*1) by (apply dict_get_keys; eauto).
      destruct (Z.le_ge_cases d1 d2).
      - apply date_windows_pair; try done; lia.
      - destruct (date_windows_pair by_date.*1 (min_gap_days params) d2 d1)
          as (w & ? & ? & ?); try done; try lia.
        by exists w. }
    assert (sum_vars value (window_vars by_date w) <= 1) as Hsum.
    { apply holds_AtMost, Hfound.
      apply elem_of_app; right. apply elem_of_app; left.
      unfold rest_constraints. apply list_elem_of_bind. exists by_date. split.
      - by apply (list_elem_of_fmap_2
                    (fun w => {| c_vars := window_vars by_date w;
                                 c_op := AtMost; c_rhs := 1 |})).
      - apply list_elem_of_fmap. exists (t, by_date). split; [done|].
        by apply dict_get_elem. }
    assert (forall d l v, dict_get d by_date = Some l -> d ∈ w -> v ∈ l ->
              v ∈ window_vars by_date w) as Hin.
    { intros d l v Hd Hdw Hv. unfold window_vars. apply list_elem_of_bind.
      exists d. rewrite Hd. split; [done | by apply elem_of_elements]. }
    pose proof (sum_vars_two value (window_vars by_date w) v1 v2
                  (Hin _ _ _ Hd1 Hw1 Hv1) (Hin _ _ _ Hd2 Hw2 Hv2) Hne Hval1 Hval2).
    lia.
  - intros t d.
    destruct (team_date_vars t d ics) as [|v0 vs0] eqn:Hvars; [done|].
    rewrite <- Hvars. pose proof (Ht t d) as Hd.
    rewrite (entry_of_nonempty _ v0) in Hd by (rewrite Hvars; left).
    destruct (dict_get t (vars_by_team_date s)) as [by_date|] eqn:Hteam; [|done].
    simpl in Hd.
    destruct (date_windows_one by_date.*1 (min_gap_days params) d)
      as (w & Hw & Hdw); [apply dict_get_keys; eauto|].
    assert (sum_vars value (window_vars by_date w) <= 1) as Hsum.
    { apply holds_AtMost, Hfound.
      apply elem_of_app; right. apply elem_of_app; left.
      unfold rest_constraints. apply list_elem_of_bind. exists by_date. split.
      - by apply (list_elem_of_fmap_2
                    (fun w => {| c_vars := window_vars by_date w;
                                 c_op := AtMost; c_rhs := 1 |})).
      - apply list_elem_of_fmap. exists (t, by_date). split; [done|].
        by apply dict_get_elem. }
    pose proof (sum_vars_bind_ge value
                  (fun d => default [] (dict_get d by_date)) (elements w) d) as Hge.
    cbv beta in Hge. rewrite Hd in Hge. simpl in Hge. unfold window_vars in Hsum.
    specialize (Hge ltac:(by apply elem_of_elements)). lia.
  - intros k v Hv. apply holds_AtMost, Hfound.
    apply elem_of_app; right. apply elem_of_app; right.
    unfold capacity_constraints.
    apply (list_elem_of_fmap_2
             (fun vs => {| c_vars := vs; c_op := AtMost;
                           c_rhs := max_concurrent_home_matches params |})).
    apply list_elem_of_fmap.
    exists (k, vars_where (fun c => (club (c_home c), c_date c) = k) ics).
    split; [done|].
    apply dict_get_elem. rewrite Hc. by eapply entry_of_nonempty.
Qed.

(** * The required fixtures *)

Section dict_keys.
Context {K V : Type} `{EqDecision K}.

Lemma dict_update_keys (k : K) (f : V -> V) (dflt : V) (d : list (K * V)) :
  (dict_update k f dflt d).*1 =
  if decide (k ∈ d.*1) then d.*1 else d.*1 ++ [k].
Proof.
  induction d as [|[k0 v0] d IH]; [done|].
  cbn [dict_update]. destruct (decide (k = k0)) as [->|Hne].
  - rewrite !fmap_cons. cbn [fst]. by rewrite decide_True by left.
  - rewrite !fmap_cons, IH. cbn [fst]. destruct (decide (k ∈ d.*1)).
    + by rewrite decide_True by by right.
    + rewrite decide_False; [done|]. by intros [?|?]%elem_of_cons.
Qed.

Lemma dict_update_NoDup (k : K) (f : V -> V) (dflt : V) (d : list (K * V)) :
  NoDup d.*1 -> NoDup (dict_update k f dflt d).*1.
Proof.
  intros Hd. rewrite dict_update_keys. case_decide as Hk; [done|].
  apply NoDup_app. split; [done|]. split; [|apply NoDup_singleton].
  intros x Hx ->%list_elem_of_singleton. done.
Qed.

Lemma dict_elem_get (k : K) (v : V) (d : list (K * V)) :
  NoDup d.*1 -> (k, v) ∈ d -> dict_get k d = Some v.
Proof.
  induction d as [|[k0 v0] d IH]; simpl; intros Hd Hin.
  - by apply elem_of_nil in Hin.
  - apply NoDup_cons in Hd as [Hk0 Hd].
    apply elem_of_cons in Hin as [[= -> ->] | Hin].
    + by rewrite decide_True.
    + rewrite decide_False; [by apply IH|].
      intros ->. apply Hk0. apply list_elem_of_fmap. by exists (k0, v).
Qed.
End dict_keys.

(** Grouping a list under a key, as the first loop of [solve] does. *)
Lemma grouping_spec {K A} `{EqDecision K} (key : A -> K) (xs : list A) :
  let d := fold_left (fun d x => dict_append (key x) x d) xs [] in
  NoDup d.*1 /\
  forall k, dict_get k d = entry_of (filter (fun x => key x = k) xs).
Proof.
  induction xs as [|x xs IH] using rev_ind; simpl.
  - split; [constructor | done].
  - rewrite fold_left_app. simpl. destruct IH as [Hnd Hget]. split.
    + by apply dict_update_NoDup.
    + intros k. unfold dict_append. rewrite dict_get_update, filter_app.
      rewrite filter_cons, filter_nil.
      destruct (decide (k = key x)) as [->|Hne].
      * rewrite decide_True by done.
        by rewrite Hget, entry_of_default, entry_of_snoc.
      * rewrite decide_False by done. by rewrite app_nil_r.
Qed.

Lemma elem_of_permutations2_aux {A} (pre l : list A) x y :
  (x, y) ∈ permutations2_aux pre l -> x ∈ l /\ y ∈ pre ++ l.
Proof.
  revert pre. induction l as [|z l IH]; intros pre; simpl.
  - by intros ?%elem_of_nil.
  - intros [Hin | Hin]%elem_of_app.
    + apply list_elem_of_fmap in Hin as (y' & [= -> ->] & Hy).
      split; [left|]. apply elem_of_app in Hy as [?|?];
        apply elem_of_app; [by left | right; by right].
    + apply IH in Hin as [Hx Hy]. split; [by right|].
      rewrite <- (assoc_L (++)) in Hy. done.
Qed.

Lemma permutations2_aux_elem {A} (pre l : list A) x y :
  x ∈ l -> y ∈ pre ++ l -> x ≠ y -> (x, y) ∈ permutations2_aux pre l.
Proof.
  revert pre. induction l as [|z l IH]; intros pre; simpl.
  - by intros ?%elem_of_nil.
  - intros Hx Hy Hne. apply elem_of_app.
    apply elem_of_cons in Hx as [->|Hx].
    + left. apply list_elem_of_fmap. exists y. split; [done|].
      apply elem_of_app in Hy as [?|[->|?]%elem_of_cons];
        [apply elem_of_app; by left | done | apply elem_of_app; by right].
    + right. apply IH; [done | by rewrite <- (assoc_L (++)) | done].
Qed.

Lemma permutations2_spec {A} (l : list A) x y :
  ((x, y) ∈ permutations2 l -> x ∈ l /\ y ∈ l) /\
  (x ∈ l -> y ∈ l -> x ≠ y -> (x, y) ∈ permutations2 l).
Proof.
  split.
  - apply (elem_of_permutations2_aux []).
  - apply (permutations2_aux_elem []).
Qed.

Lemma division_lists params (division_teams : list Team) :
  division_teams ∈ (teams_by_division params).*2 <->
  exists dv, division_teams = filter (fun t => division t = dv) (teams params) /\
    division_teams ≠ [].
Proof.
  destruct (grouping_spec division (teams params)) as [Hnd Hget].
  fold (teams_by_division params) in Hnd, Hget. split.
  - intros ([dv l] & -> & Hin)%list_elem_of_fmap. simpl. exists dv.
    apply dict_elem_get in Hin; [|done]. rewrite Hget in Hin.
    by apply entry_of_Some in Hin as [-> ?].
  - intros (dv & -> & Hne). apply list_elem_of_fmap.
    exists (dv, filter (fun t => division t = dv) (teams params)). split; [done|].
    apply dict_get_elem. rewrite Hget.
    destruct (filter _ _); done.
Qed.

Lemma elem_of_required_fixtures params home away :
  ((home, away) ∈ required_fixtures params ->
     home ∈ teams params /\ away ∈ teams params /\
     division home = division away) /\
  (home ∈ teams params -> away ∈ teams params -> home ≠ away ->
     division home = division away -> (home, away) ∈ required_fixtures params).
Proof.
  unfold required_fixtures. split.
  - intros (l & Hin & Hl)%list_elem_of_bind.
    apply division_lists in Hl as (dv & -> & _).
    apply permutations2_spec in Hin as [Hh Ha].
    apply list_elem_of_filter in Hh as [Hh1 Hh2], Ha as [Ha1 Ha2].
    repeat split; [done..|congruence].
  - intros Hh Ha Hne Hdiv. apply list_elem_of_bind.
    exists (filter (fun t => division t = division home) (teams params)).
    assert (home ∈ filter (fun t => division t = division home) (teams params))
      as Hin by by apply list_elem_of_filter.
    split.
    + apply permutations2_spec; [done| |done]. by apply list_elem_of_filter.
    + apply division_lists. exists (division home). split; [done|].
      intros Hnil. rewrite Hnil in Hin. by apply elem_of_nil in Hin.
Qed.

Lemma elem_of_candidates params c :
  c ∈ candidates params <->
  (c_home c, c_away c) ∈ required_fixtures params /\
  c_date c ∈ eligible_dates params (c_home c) (c_away c).
Proof.
  unfold candidates, candidates_of. rewrite list_elem_of_bind. split.
  - intros ([h a] & Hc & Hin). simpl in Hc.
    apply list_elem_of_fmap in Hc as (d & -> & Hd). done.
  - intros [Hin Hd]. exists (c_home c, c_away c). split; [|done].
    apply list_elem_of_fmap. exists (c_date c). split; [by destruct c | done].
Qed.

Lemma elem_of_eligible_dates params home away d :
  d ∈ eligible_dates params home away <->
  d ∈ default [] (home_dates params !! club home) /\
  d ∉ unavailable params (club away).
Proof. unfold eligible_dates. rewrite list_elem_of_filter. tauto. Qed.

(** * The claims about [solve] *)

Lemma elem_of_scheduled (value : var -> bool) (ics : list (var * candidate)) sf :
  sf ∈ (ic ← ics; if value ic.1 then [c_scheduled ic.2] else []) <->
  exists i c, (i, c) ∈ ics /\ value i = true /\ sf = c_scheduled c.
Proof.
  rewrite list_elem_of_bind. split.
  - intros ([i c] & Hsf & Hin). simpl in Hsf. exists i, c.
    destruct (value i); [|by apply elem_of_nil in Hsf].
    by apply list_elem_of_singleton in Hsf.
  - intros (i & c & Hin & Hv & ->). exists (i, c). simpl. rewrite Hv.
    split; [left | done].
Qed.

Lemma small_params_solved :
  solve exhaustive small_params = Ok [A_hosts_B; B_hosts_A].
Proof. vm_compute. reflexivity. Qed.

(** C7: every scheduled fixture of a returned schedule is on a date taken
    from the home club's list of home dates and absent from the away
    club's list of unavailable away dates. *)
Theorem schedule_dates_eligible (Solve : engine) (params : Parameters)
    (result : list ScheduledFixture) (sf : ScheduledFixture) :
  engine_sound Solve ->
  solve Solve params = Ok result ->
  sf ∈ result ->
  (exists dates,
     home_dates params !! club (home_team (fixture sf)) = Some dates /\
     date sf ∈ dates) /\
  date sf ∉ default [] (unavailable_away_dates params !! club (away_team (fixture sf))).
Proof.
  intros Hsound Hsolved Hsf.
  destruct (solved_facts Solve Hsound params result Hsolved)
    as (value & Hperm & _).
  rewrite Hperm in Hsf. apply elem_of_scheduled in Hsf as (i & c & Hin & _ & ->).
  apply elem_of_numbered, list_elem_of_lookup_2 in Hin.
  apply elem_of_candidates in Hin as [_ Hd].
  apply elem_of_eligible_dates in Hd as [Hhome Haway]. simpl. split; [|done].
  destruct (home_dates params !! club (c_home c)) as [dates|]; simpl in Hhome.
  - by exists dates.
  - by apply elem_of_nil in Hhome.
Qed.

Lemma schedule_dates_eligible_witness :
  (exists dates,
     home_dates small_params !! club (home_team (fixture A_hosts_B)) = Some dates /\
     date A_hosts_B ∈ dates) /\
  date A_hosts_B ∉
    default [] (unavailable_away_dates small_params
                  !! club (away_team (fixture A_hosts_B))).
Proof.
  apply (schedule_dates_eligible exhaustive small_params [A_hosts_B; B_hosts_A]).
  - exact exhaustive_sound.
  - vm_compute. reflexivity.
  - left.
Defined.

Lemma rest_between (Solve : engine) (params : Parameters)
    (result : list ScheduledFixture) (t : Team) (sf1 sf2 : ScheduledFixture) :
  engine_sound Solve ->
  solve Solve params = Ok result ->
  sf1 ∈ result -> sf2 ∈ result -> plays t sf1 -> plays t sf2 -> sf1 ≠ sf2 ->
  min_gap_days params < Z.abs (date sf2 - date sf1).
Proof.
  intros Hsound Hsolved H1 H2 Hp1 Hp2 Hne.
  destruct (solved_facts Solve Hsound params result Hsolved)
    as (value & Hperm & _ & Hrest & _).
  rewrite Hperm in H1, H2.
  apply elem_of_scheduled in H1 as (i1 & c1 & Hin1 & Hv1 & ->).
  apply elem_of_scheduled in H2 as (i2 & c2 & Hin2 & Hv2 & ->).
  apply (Hrest t (c_date c1) (c_date c2) i1 i2); try done.
  - apply elem_of_team_date_vars. by exists c1.
  - apply elem_of_team_date_vars. by exists c2.
  - intros ->. apply elem_of_numbered in Hin1, Hin2. congruence.
Qed.

(** C4: in a returned schedule no two dates on which a team plays, at home
    or away, are closer together than [min_gap_days]. *)
Theorem rest_gap (Solve : engine) (params : Parameters)
    (result : list ScheduledFixture) (t : Team) (sf1 sf2 : ScheduledFixture) :
  engine_sound Solve ->
  solve Solve params = Ok result ->
  sf1 ∈ result -> sf2 ∈ result -> plays t sf1 -> plays t sf2 ->
  date sf1 ≠ date sf2 ->
  ¬ (Z.abs (date sf2 - date sf1) < min_gap_days params).
Proof.
  intros Hsound Hsolved H1 H2 Hp1 Hp2 Hne.
  assert (sf1 ≠ sf2) as Hsf by congruence.
  pose proof (rest_between Solve params result t sf1 sf2
                Hsound Hsolved H1 H2 Hp1 Hp2 Hsf). lia.
Qed.

Lemma rest_gap_witness :
  ¬ (Z.abs (date B_hosts_A - date A_hosts_B) < min_gap_days small_params).
Proof.
  apply (rest_gap exhaustive small_params [A_hosts_B; B_hosts_A] team_A).
  - exact exhaustive_sound.
  - vm_compute. reflexivity.
  - left.
  - right. left.
  - left. reflexivity.
  - right. reflexivity.
  - vm_compute. discriminate.
Defined.

(** C9: with [min_gap_days >= 0], two distinct dates on which a team plays
    differ by at least [min_gap_days + 1]; two different matches of a team
    are never exactly [min_gap_days] apart. *)
Theorem rest_beyond_gap (Solve : engine) (params : Parameters)
    (result : list ScheduledFixture) (t : Team) (sf1 sf2 : ScheduledFixture) :
  engine_sound Solve ->
  solve Solve params = Ok result ->
  0 <= min_gap_days params ->
  sf1 ∈ result -> sf2 ∈ result -> plays t sf1 -> plays t sf2 ->
  (date sf1 ≠ date sf2 ->
     min_gap_days params + 1 <= Z.abs (date sf2 - date sf1)) /\
  (sf1 ≠ sf2 -> Z.abs (date sf2 - date sf1) ≠ min_gap_days params).
Proof.
  intros Hsound Hsolved _ H1 H2 Hp1 Hp2. split; intros Hne.
  - assert (sf1 ≠ sf2) as Hsf by congruence.
    pose proof (rest_between Solve params result t sf1 sf2
                  Hsound Hsolved H1 H2 Hp1 Hp2 Hsf). lia.
  - pose proof (rest_between Solve params result t sf1 sf2
                  Hsound Hsolved H1 H2 Hp1 Hp2 Hne). lia.
Qed.

Lemma rest_beyond_gap_witness :
  (date A_hosts_B ≠ date B_hosts_A ->
     min_gap_days small_params + 1 <= Z.abs (date B_hosts_A - date A_hosts_B)) /\
  (A_hosts_B ≠ B_hosts_A ->
     Z.abs (date B_hosts_A - date A_hosts_B) ≠ min_gap_days small_params).
Proof.
  apply (rest_beyond_gap exhaustive small_params [A_hosts_B; B_hosts_A] team_A).
  - exact exhaustive_sound.
  - vm_compute. reflexivity.
  - vm_compute. discriminate.
  - left.
  - right. left.
  - left. reflexivity.
  - right. reflexivity.
Defined.

Lemma hosted_count (value : var -> bool) (ics : list (var * candidate)) c d :
  Z.of_nat (length (filter (hosted_on c d)
     (ic ← ics; if value ic.1 then [c_scheduled ic.2] else []))) =
  sum_vars value (vars_where (fun c0 => (club (c_home c0), c_date c0) = (c, d)) ics).
Proof.
  rewrite count_scheduled. f_equal. apply vars_where_ext.
  intros c0. unfold hosted_on. simpl. split; [by intros [-> ->] | by intros [= -> ->]].
Qed.

(** C8, amended: in a returned schedule the number of fixtures a club hosts
    on a date is at most [max_concurrent_home_matches] whenever that
    capacity is not negative or the club hosts a fixture on that date. *)
Theorem host_capacity (Solve : engine) (params : Parameters)
    (result : list ScheduledFixture) (c : string) (d : Date) :
  engine_sound Solve ->
  solve Solve params = Ok result ->
  0 <= max_concurrent_home_matches params \/
    (exists sf, sf ∈ result /\ hosted_on c d sf) ->
  Z.of_nat (length (filter (hosted_on c d) result))
  <= max_concurrent_home_matches params.
Proof.
  intros Hsound Hsolved Hcase.
  destruct (solved_facts Solve Hsound params result Hsolved)
    as (value & Hperm & _ & _ & _ & Hcap & _).
  set (ics := numbered (candidates params)) in *.
  rewrite Hperm, hosted_count.
  destruct (vars_where (fun c0 => (club (c_home c0), c_date c0) = (c, d)) ics)
    as [|v vs] eqn:Hvars.
  - destruct Hcase as [Hpos | (sf & Hsf & Hhost)]; [done|]. exfalso.
    rewrite Hperm in Hsf.
    apply elem_of_scheduled in Hsf as (i & c0 & Hin & _ & ->).
    assert (i ∈ vars_where (fun c0 => (club (c_home c0), c_date c0) = (c, d)) ics)
      as Hi.
    { apply elem_of_vars_where. exists c0. split; [done|].
      destruct Hhost as [Hc Hd]. simpl in Hc, Hd. by rewrite Hc, Hd. }
    rewrite Hvars in Hi. by apply elem_of_nil in Hi.
  - rewrite <- Hvars. apply (Hcap (c, d) v). rewrite Hvars. left.
Qed.

Lemma host_capacity_witness :
  Z.of_nat (length (filter (hosted_on "Test Club A" 1) [A_hosts_B; B_hosts_A]))
  <= max_concurrent_home_matches small_params.
Proof.
  apply (host_capacity exhaustive small_params [A_hosts_B; B_hosts_A]).
  - exact exhaustive_sound.
  - vm_compute. reflexivity.
  - left. vm_compute. discriminate.
Defined.

(** C8 as stated fails: with no team and the capacity -1 the schedule is
    empty, and a club then hosts 0 fixtures, more than the capacity. *)
Lemma host_capacity_counterexample :
  engine_sound exhaustive /\ engine_complete exhaustive /\
  solve exhaustive negative_capacity_params = Ok [] /\
  ¬ (Z.of_nat (length (filter (hosted_on "Test Club A" 1) []))
     <= max_concurrent_home_matches negative_capacity_params).
Proof.
  split; [exact exhaustive_sound|]. split; [exact exhaustive_complete|].
  split; [vm_compute; reflexivity|]. vm_compute. intros H. by apply H.
Qed.

(** When no variable is created the engine gets the empty model, which any
    valuation satisfies. *)
Lemma solve_no_candidates (Solve : engine) (params : Parameters) :
  engine_complete Solve ->
  build_variables params = Ok initial_state ->
  solve Solve params = Ok [].
Proof.
  intros Hcomplete Hbuild. unfold solve. rewrite Hbuild.
  pose proof (Hcomplete (final_model params initial_state) (fun _ => false)
                eq_refl) as Hfound.
  destruct (Solve (final_model params initial_state)) as [status value].
  simpl in Hfound. by rewrite Hfound.
Qed.

(** C10: with an empty collection of teams [solve] returns the empty
    schedule, whatever the mappings and the integer parameters. *)
Theorem solve_no_teams (Solve : engine) (params : Parameters) :
  engine_complete Solve ->
  teams params = [] ->
  solve Solve params = Ok [].
Proof.
  intros Hcomplete Hteams. apply solve_no_candidates; [done|].
  unfold build_variables, teams_by_division. by rewrite Hteams.
Qed.

Lemma solve_no_teams_witness : solve exhaustive no_teams_params = Ok [].
Proof.
  apply (solve_no_teams exhaustive no_teams_params).
  - exact exhaustive_complete.
  - reflexivity.
Defined.

(** C1, amended: for two teams of one division whose only home dates are
    each blocked for the other team, no variable and no constraint is
    created, and [solve] returns the empty schedule. *)
Theorem solve_blocked_pair (Solve : engine) (params : Parameters)
    (A B : Team) (day1 day2 : Date) :
  engine_complete Solve ->
  teams params = [A; B] ->
  division A = division B ->
  home_dates params !! club A = Some [day1] ->
  home_dates params !! club B = Some [day2] ->
  day2 ∈ unavailable params (club A) ->
  day1 ∈ unavailable params (club B) ->
  solve Solve params = Ok [].
Proof.
  intros Hcomplete Hteams Hdiv HA HB H2 H1. apply solve_no_candidates; [done|].
  unfold build_variables, teams_by_division. rewrite Hteams. simpl.
  unfold dict_append. simpl. rewrite decide_True by done. simpl.
  rewrite HA. simpl. rewrite decide_True by done.
  rewrite HB. simpl. by rewrite decide_True by done.
Qed.

Lemma solve_blocked_pair_witness : solve exhaustive impossible_params = Ok [].
Proof.
  apply (solve_blocked_pair exhaustive impossible_params team_A team_B 1 2).
  - exact exhaustive_complete.
  - reflexivity.
  - reflexivity.
  - vm_compute. reflexivity.
  - vm_compute. reflexivity.
  - vm_compute. left.
  - vm_compute. left.
Defined.

(** C1 as stated fails: on the parameters of
    [test_simple_impossible_constraint] the result is the empty list, not
    the exception. *)
Lemma solve_blocked_pair_counterexample :
  engine_sound exhaustive /\ engine_complete exhaustive /\
  solve exhaustive impossible_params = Ok [] /\
  solve exhaustive impossible_params ≠ Raise (ValueError "No solution found").
Proof.
  split; [exact exhaustive_sound|]. split; [exact exhaustive_complete|].
  split; [vm_compute; reflexivity|]. vm_compute. discriminate.
Qed.

Lemma date_windows_negative (dates : list Date) (window_days : Z) (w : window) :
  window_days < 0 ->
  w ∈ date_windows dates window_days <-> exists d, d ∈ dates /\ w = {[d]}.
Proof.
  intros Hneg.
  assert (Hfwd : forall w', w' ∈ date_windows dates window_days ->
            exists d, d ∈ dates /\ w' = {[d]}).
  { intros w' Hw'. destruct (sorted_spec dates) as [Hp Hs].
    destruct (date_windows_anchored dates window_days) as [H1 _].
    destruct (anchored_windows_elem _ _ _ Hs (H1 w' Hw')) as (d & Hd & Hdw & Hall).
    exists d. split; [by rewrite <- Hp|].
    apply set_eq. intros x. rewrite elem_of_singleton. split.
    - intros Hx. destruct (Hall x Hx) as (_ & ? & [?|?]); [done | lia].
    - by intros ->. }
  split; [apply Hfwd|].
  intros (d & Hd & ->).
  destruct (date_windows_one dates window_days d Hd) as (w' & Hw' & Hdw').
  destruct (Hfwd w' Hw') as (d' & _ & ->).
  apply elem_of_singleton in Hdw' as ->. done.
Qed.

Lemma window_from_negative d rest n :
  n < 0 -> Forall (Z.le d) rest -> window_from d rest n {[d]} = {[d]}.
Proof.
  intros Hn Hall. destruct rest as [|dj rest]; [done|]. simpl.
  apply Forall_cons in Hall as [Hd _]. by rewrite decide_False by lia.
Qed.

Lemma window_from_zero d rest :
  Forall (Z.le d) rest -> window_from d rest 0 {[d]} = {[d]}.
Proof.
  induction rest as [|dj rest IH]; intros Hall; [done|]. simpl.
  apply Forall_cons in Hall as [Hd Hall].
  destruct (decide (dj - d <= 0)); [|done].
  assert (dj = d) as -> by lia. rewrite union_idemp_L. by apply IH.
Qed.

Lemma anchored_windows_negative l n :
  n < 0 -> StronglySorted Z.le l ->
  anchored_windows l n = anchored_windows l 0.
Proof.
  intros Hn Hs. induction Hs as [|d rest Hs IH Hall]; [done|]. simpl.
  by rewrite window_from_negative, window_from_zero, IH.
Qed.

Lemma date_windows_negative_zero dates n :
  n < 0 -> date_windows dates n = date_windows dates 0.
Proof.
  intros Hn. unfold date_windows. destruct (sorted_spec dates) as [_ Hs].
  by rewrite (anchored_windows_negative _ _ Hn Hs).
Qed.

Lemma candidates_of_nil params pairs :
  Forall (fun pair => eligible_dates params pair.1 pair.2 = []) pairs ->
  candidates_of params pairs = [].
Proof.
  induction 1 as [|pair pairs Hd _ IH]; [done|].
  by rewrite candidates_of_cons, Hd, IH.
Qed.

(** C3, amended: [solve] and [date_windows] validate nothing.  A negative
    [window_days] is accepted by [date_windows], which then returns the
    singleton windows of the dates.  A negative [min_gap_days] is accepted
    by [solve], which hands the engine the model it builds for
    [min_gap_days = 0].  With a negative [min_gap_days] or
    [max_concurrent_home_matches], [solve] still returns the empty schedule
    when every required fixture has its home dates and none of them is
    eligible.  A home club without an entry in [home_dates] raises
    [KeyError] while the variables are built, when its team has another
    team in its division. *)
Theorem no_validation :
  (forall (dates : list Date) (window_days : Z) (w : window),
     window_days < 0 ->
     (w ∈ date_windows dates window_days <-> exists d, d ∈ dates /\ w = {[d]})) /\
  (forall (params : Parameters) (s : build_state),
     min_gap_days params < 0 ->
     final_model params s =
     final_model
       {| teams := teams params;
          home_dates := home_dates params;
          unavailable_away_dates := unavailable_away_dates params;
          min_gap_days := 0;
          max_concurrent_home_matches := max_concurrent_home_matches params |}
       s) /\
  (forall (Solve : engine) (params : Parameters),
     engine_complete Solve ->
     min_gap_days params < 0 \/ max_concurrent_home_matches params < 0 ->
     Forall (fun pair => is_Some (home_dates params !! club pair.1) /\
                         eligible_dates params pair.1 pair.2 = [])
       (required_fixtures params) ->
     solve Solve params = Ok []) /\
  (forall (Solve : engine) (params : Parameters) (home away : Team),
     home ∈ teams params -> away ∈ teams params -> home ≠ away ->
     division home = division away ->
     home_dates params !! club home = None ->
     exists c, solve Solve params = Raise (KeyError c)).
Proof.
  split; [exact date_windows_negative|]. split; [|split].
  - intros params s Hneg. unfold final_model. f_equal. f_equal.
    unfold rest_constraints. simpl.
    induction (vars_by_team_date s).*2 as [|tv l IH]; [done|].
    rewrite !bind_cons, IH. f_equal.
    by rewrite (date_windows_negative_zero _ _ Hneg).
  - intros Solve params Hcomplete _ Hall.
    apply solve_no_candidates; [done|].
    pose proof (build_variables_spec params) as Hspec.
    destruct (build_variables params) as [s|e].
    + destruct Hspec as [-> _]. unfold candidates.
      rewrite candidates_of_nil; [done|].
      eapply Forall_impl; [exact Hall|]. by intros pair [_ ?].
    + destruct Hspec as (pair & Hin & Hnone & _).
      rewrite Forall_forall in Hall. destruct (Hall pair Hin) as [Hsome _].
      rewrite Hnone in Hsome. by destruct Hsome.
  - intros Solve params home away Hh Ha Hne Hdiv Hnone. unfold solve.
    pose proof (build_variables_spec params) as Hspec.
    destruct (build_variables params) as [s|e'].
    + destruct Hspec as [_ Hall]. rewrite Forall_forall in Hall.
      assert ((home, away) ∈ required_fixtures params) as Hin
        by by apply elem_of_required_fixtures.
      apply Hall in Hin. simpl in Hin. rewrite Hnone in Hin.
      by destruct Hin.
    + destruct Hspec as (pair & _ & _ & ->). by eexists.
Qed.

Lemma no_validation_witness :
  ({[3]} ∈ date_windows [1; 3] (-1)) /\
  (final_model negative_gap_params
     (add_candidates (candidates negative_gap_params) initial_state) =
   final_model
     {| teams := teams negative_gap_params;
        home_dates := home_dates negative_gap_params;
        unavailable_away_dates := unavailable_away_dates negative_gap_params;
        min_gap_days := 0;
        max_concurrent_home_matches :=
          max_concurrent_home_matches negative_gap_params |}
     (add_candidates (candidates negative_gap_params) initial_state)) /\
  (solve exhaustive blocked_negative_params = Ok []) /\
  (exists c, solve exhaustive missing_club_params = Raise (KeyError c)).
Proof.
  destruct no_validation as (Hwin & Hgap & Hneg & Hkey). split; [|split; [|split]].
  - apply Hwin; [lia|]. exists 3. split; [right; left | done].
  - apply (Hgap negative_gap_params). reflexivity.
  - apply (Hneg exhaustive blocked_negative_params).
    + exact exhaustive_complete.
    + left. reflexivity.
    + vm_compute. repeat constructor; by eexists.
  - apply (Hkey exhaustive missing_club_params team_A team_B).
    + left.
    + right. left.
    + vm_compute. discriminate.
    + reflexivity.
    + vm_compute. reflexivity.
Defined.

(** C3 as stated fails: none of these inputs is rejected. *)
Lemma no_validation_counterexample :
  date_windows [1; 3] (-1) = [ {[1]}; {[3]} ] /\
  engine_sound exhaustive /\ engine_complete exhaustive /\
  solve exhaustive negative_gap_params = Ok [A_hosts_B; B_hosts_A] /\
  solve exhaustive negative_capacity_params = Ok [] /\
  solve exhaustive lone_team_params = Ok [].
Proof.
  split; [vm_compute; reflexivity|].
  split; [exact exhaustive_sound|]. split; [exact exhaustive_complete|].
  repeat split; vm_compute; reflexivity.
Qed.

(** * Coverage: one scheduled fixture per fixture that has a candidate *)

Lemma team_date_vars_twice (value : var -> bool) ics t d v c :
  (v, c) ∈ ics -> c_home c = t -> c_away c = t -> c_date c = d ->
  value v = true -> 2 <= sum_vars value (team_date_vars t d ics).
Proof.
  intros Hin Hh Ha Hd Hv. unfold team_date_vars.
  induction ics as [|ic ics IH]; [by apply elem_of_nil in Hin|].
  rewrite bind_cons, sum_vars_app.
  pose proof (sum_vars_nonneg value
    ((if decide (c_home ic.2 = t /\ c_date ic.2 = d) then [ic.1] else []) ++
     (if decide (c_away ic.2 = t /\ c_date ic.2 = d) then [ic.1] else []))).
  apply elem_of_cons in Hin as [<- | Hin].
  - simpl. rewrite !decide_True by done.
    pose proof (sum_vars_nonneg value
      (ics ≫= fun ic =>
         (if decide (c_home ic.2 = t /\ c_date ic.2 = d) then [ic.1] else []) ++
         (if decide (c_away ic.2 = t /\ c_date ic.2 = d) then [ic.1] else []))).
    simpl. rewrite Hv. simpl. lia.
  - specialize (IH Hin). lia.
Qed.

Lemma vars_where_ext_in (P Q : candidate -> Prop) `{!forall c, Decision (P c)}
    `{!forall c, Decision (Q c)} ics :
  (forall i c, (i, c) ∈ ics -> (P c <-> Q c)) -> vars_where P ics = vars_where Q ics.
Proof.
  intros HPQ. unfold vars_where. f_equal.
  induction ics as [|[i c] ics IH]; [done|].
  rewrite !filter_cons, IH by (intros i' c' ?; apply (HPQ i' c'); by right).
  simpl. pose proof (HPQ i c ltac:(left)).
  destruct (decide (P c)), (decide (Q c)); tauto.
Qed.

Lemma vars_where_cons (P : candidate -> Prop) `{!forall c, Decision (P c)} i c ics :
  vars_where P ((i, c) :: ics) =
  (if decide (P c) then [i] else []) ++ vars_where P ics.
Proof. unfold vars_where. rewrite filter_cons. simpl. by case_decide. Qed.

Lemma sum_vars_split (P Q R : candidate -> Prop) `{!forall c, Decision (P c)}
    `{!forall c, Decision (Q c)} `{!forall c, Decision (R c)}
    (value : var -> bool) ics :
  (forall c, R c <-> P c \/ Q c) -> (forall c, P c -> Q c -> False) ->
  sum_vars value (vars_where R ics) =
  sum_vars value (vars_where P ics) + sum_vars value (vars_where Q ics).
Proof.
  intros HR Hdisj. induction ics as [|[i c] ics IH]; [done|].
  rewrite !vars_where_cons, !sum_vars_app, IH.
  specialize (HR c). specialize (Hdisj c).
  destruct (decide (P c)), (decide (Q c)), (decide (R c)); simpl; try tauto; lia.
Qed.

Lemma vars_where_none (P : candidate -> Prop) `{!forall c, Decision (P c)} ics :
  (forall c, ¬ P c) -> vars_where P ics = [].
Proof.
  intros HP. induction ics as [|[i c] ics IH]; [done|].
  rewrite vars_where_cons, IH. by rewrite decide_False by apply HP.
Qed.

(** Variables whose keys lie in a duplicate-free list of keys, each key
    carrying exactly one true variable: as many true variables as keys. *)
Lemma sum_vars_by_key {K} `{EqDecision K} (key : candidate -> K)
    (value : var -> bool) ics (ks : list K) :
  NoDup ks ->
  (forall k, k ∈ ks -> sum_vars value (vars_where (fun c => key c = k) ics) = 1) ->
  sum_vars value (vars_where (fun c => key c ∈ ks) ics) = Z.of_nat (length ks).
Proof.
  induction 1 as [|k ks Hk Hnd IH]; intros Hone.
  - rewrite vars_where_none; [done|]. by intros c ?%elem_of_nil.
  - rewrite (sum_vars_split (fun c => key c = k) (fun c => key c ∈ ks)
               (fun c => key c ∈ k :: ks)).
    + rewrite Hone by left. rewrite IH by (intros; apply Hone; by right).
      simpl length. lia.
    + intros c. apply elem_of_cons.
    + intros c -> Hin. done.
Qed.

Lemma fixture_has_var params home away :
  (home, away) ∈ required_fixtures params ->
  eligible_dates params home away ≠ [] ->
  exists v, v ∈ vars_where
    (fun c => c_fixture c = {| home_team := home; away_team := away |})
    (numbered (candidates params)).
Proof.
  intros Hreq Hdates.
  destruct (eligible_dates params home away) as [|d ds] eqn:Hd; [done|].
  assert ({| c_home := home; c_away := away; c_date := d |} ∈ candidates params)
    as Hc.
  { apply elem_of_candidates. simpl. split; [done|]. rewrite Hd. left. }
  apply list_elem_of_lookup in Hc as [i Hi]. exists i.
  apply elem_of_vars_where. eexists. split; [by apply elem_of_numbered|done].
Qed.

Lemma fixture_var_inv params f v :
  v ∈ vars_where (fun c => c_fixture c = f) (numbered (candidates params)) ->
  (home_team f, away_team f) ∈ required_fixtures params /\
  eligible_dates params (home_team f) (away_team f) ≠ [].
Proof.
  intros (c & Hin & <-)%elem_of_vars_where.
  apply elem_of_numbered, list_elem_of_lookup_2, elem_of_candidates in Hin
    as [Hreq Hd].
  simpl. split; [done|]. intros Hnil. rewrite Hnil in Hd.
  by apply elem_of_nil in Hd.
Qed.

Lemma vars_where_all (ics : list (var * candidate)) :
  vars_where (fun _ => True) ics = ics.*1.
Proof.
  induction ics as [|[i c] ics IH]; [done|].
  by rewrite vars_where_cons, IH.
Qed.

Lemma length_scheduled (value : var -> bool) (ics : list (var * candidate)) :
  Z.of_nat (length (ic ← ics; if value ic.1 then [c_scheduled ic.2] else [])) =
  sum_vars value ics.*1.
Proof.
  induction ics as [|[i c] ics IH]; [done|].
  rewrite bind_cons, length_app, Nat2Z.inj_add, IH, fmap_cons, sum_vars_cons.
  simpl. by destruct (value i).
Qed.

(** C2, amended: in a returned schedule every ordered pair of distinct
    teams sharing a division has exactly one scheduled fixture if it has an
    eligible date, and none otherwise; the size of the schedule is the
    number of such pairs that have an eligible date. *)
Theorem fixtures_scheduled_once (Solve : engine) (params : Parameters)
    (result : list ScheduledFixture) :
  engine_sound Solve ->
  solve Solve params = Ok result ->
  (forall home away,
     home ∈ teams params -> away ∈ teams params -> home ≠ away ->
     division home = division away ->
     length (filter
       (fun sf => fixture sf = {| home_team := home; away_team := away |})
       result) =
     if decide (eligible_dates params home away = []) then 0%nat else 1%nat) /\
  (forall pairs : list (Team * Team),
     NoDup pairs ->
     (forall home away,
        (home, away) ∈ pairs <->
        home ∈ teams params /\ away ∈ teams params /\ home ≠ away /\
        division home = division away /\ eligible_dates params home away ≠ []) ->
     length result = length pairs).
Proof.
  intros Hsound Hsolved.
  destruct (solved_facts Solve Hsound params result Hsolved)
    as (value & Hperm & Hcov & _ & Hday & _).
  set (ics := numbered (candidates params)) in *.
  assert (Hone : forall home away,
            (home, away) ∈ required_fixtures params ->
            eligible_dates params home away ≠ [] ->
            sum_vars value (vars_where
              (fun c => c_fixture c = {| home_team := home; away_team := away |})
              ics) = 1).
  { intros home away Hreq Hd.
    destruct (fixture_has_var params home away Hreq Hd) as [v Hv].
    by apply (Hcov _ v). }
  assert (Hdistinct : forall i c, (i, c) ∈ ics -> c_home c ≠ c_away c).
  { intros i c Hin Heq.
    assert (i ∈ vars_where (fun c0 => c_fixture c0 = c_fixture c) ics) as Hi.
    { apply elem_of_vars_where. by exists c. }
    pose proof (Hcov _ i Hi) as Hsum.
    destruct (sum_vars_pos value _ ltac:(rewrite Hsum; lia)) as (v & Hv & Hval).
    apply elem_of_vars_where in Hv as (c' & Hin' & Hfix).
    injection Hfix as Hh Ha.
    pose proof (team_date_vars_twice value ics (c_home c) (c_date c') v c'
                  Hin' Hh ltac:(congruence) eq_refl Hval).
    pose proof (Hday (c_home c) (c_date c')). lia. }
  split.
  - intros home away Hh Ha Hne Hdiv.
    assert ((home, away) ∈ required_fixtures params) as Hreq
      by by apply elem_of_required_fixtures.
    apply Nat2Z.inj. rewrite Hperm, count_scheduled.
    rewrite (vars_where_ext _
      (fun c => c_fixture c = {| home_team := home; away_team := away |}))
      by done.
    case_decide as Hd.
    + destruct (vars_where _ ics) as [|v vs] eqn:Hvars; [done|].
      assert (v ∈ vars_where
        (fun c => c_fixture c = {| home_team := home; away_team := away |}) ics)
        as Hv by (rewrite Hvars; left).
      apply fixture_var_inv in Hv as [_ Hv]. done.
    + by apply Hone.
  - intros pairs Hnd Hpairs.
    set (mk := fun p : Team * Team => {| home_team := p.1; away_team := p.2 |}).
    assert (Inj (=) (=) mk) as Hmk by (by intros [a b] [a' b'] [= -> ->]).
    apply Nat2Z.inj. rewrite Hperm, length_scheduled.
    rewrite <- (vars_where_all ics).
    rewrite (vars_where_ext_in (fun _ => True)
               (fun c => c_fixture c ∈ mk <$> pairs)).
    + rewrite (sum_vars_by_key c_fixture value ics (mk <$> pairs)).
      * by rewrite length_fmap.
      * by apply NoDup_fmap_2.
      * intros f ([home away] & -> & Hin)%list_elem_of_fmap.
        apply Hpairs in Hin as (Hh & Ha & Hne & Hdiv & Hd).
        apply Hone; [by apply elem_of_required_fixtures | done].
    + intros i c Hin. split; [intros _ | done].
      apply list_elem_of_fmap. exists (c_home c, c_away c). split; [done|].
      apply Hpairs. pose proof (Hdistinct i c Hin) as Hne.
      apply elem_of_numbered, list_elem_of_lookup_2, elem_of_candidates in Hin
        as [Hreq Hd].
      apply elem_of_required_fixtures in Hreq as (Hh & Ha & Hdiv).
      repeat split; try done.
      intros Hnil. rewrite Hnil in Hd. by apply elem_of_nil in Hd.
Qed.

Lemma fixtures_scheduled_once_witness :
  length (filter
    (fun sf => fixture sf = {| home_team := team_A; away_team := team_B |})
    [A_hosts_B; B_hosts_A]) = 1%nat /\
  length [A_hosts_B; B_hosts_A] = length [(team_A, team_B); (team_B, team_A)].
Proof.
  destruct (fixtures_scheduled_once exhaustive small_params [A_hosts_B; B_hosts_A])
    as [Hone Hsize].
  - exact exhaustive_sound.
  - vm_compute. reflexivity.
  - split.
    + apply (Hone team_A team_B).
      * left.
      * right. left.
      * vm_compute. discriminate.
      * reflexivity.
    + apply Hsize.
      * repeat constructor; vm_compute.
        -- intros [Heq | Hin]%elem_of_cons; [discriminate | by apply elem_of_nil in Hin].
        -- by intros Hin%elem_of_nil.
      * intros home away. split.
        -- intros [Heq | [Heq | Hin]%elem_of_cons]%elem_of_cons;
             [| | by apply elem_of_nil in Hin];
             injection Heq as -> ->;
             (split; [|split; [|split; [|split]]]);
             try (vm_compute; discriminate); try reflexivity;
             try (left; fail); right; left.
        -- intros (Hh & Ha & Hne & _ & _). simpl in Hh, Ha.
           apply elem_of_cons in Hh as [-> | Hh];
             [|apply list_elem_of_singleton in Hh as ->];
             (apply elem_of_cons in Ha as [-> | Ha];
              [|apply list_elem_of_singleton in Ha as ->]);
             try done; [left | right; left].
Defined.

(** C2 as stated fails: on the parameters of
    [test_simple_impossible_constraint] the two teams share a division, and
    the returned schedule holds no fixture for the pair. *)
Lemma fixtures_scheduled_once_counterexample :
  engine_sound exhaustive /\ engine_complete exhaustive /\
  solve exhaustive impossible_params = Ok [] /\
  team_A ∈ teams impossible_params /\ team_B ∈ teams impossible_params /\
  team_A ≠ team_B /\ division team_A = division team_B /\
  length (filter
    (fun sf => fixture sf = {| home_team := team_A; away_team := team_B |})
    []) ≠ 1%nat.
Proof.
  split; [exact exhaustive_sound|]. split; [exact exhaustive_complete|].
  split; [vm_compute; reflexivity|].
  split; [left|]. split; [right; left|].
  split; [vm_compute; discriminate|]. split; [reflexivity|].
  vm_compute. discriminate.
Qed.

(** * More on [date_windows] *)

Lemma elem_of_forward_window dates n d x :
  x ∈ forward_window dates n d <-> x = d \/ (x ∈ dates /\ d <= x <= d + n).
Proof.
  unfold forward_window.
  rewrite elem_of_union, elem_of_singleton, elem_of_list_to_set, list_elem_of_filter.
  tauto.
Qed.

Lemma forward_window_ext dates1 dates2 n d :
  (forall x, x ∈ dates1 <-> x ∈ dates2) ->
  forward_window dates1 n d = forward_window dates2 n d.
Proof.
  intros Hsame. apply set_eq. intros x. rewrite !elem_of_forward_window.
  by rewrite Hsame.
Qed.

Lemma window_from_spec d rest n (w : window) x :
  StronglySorted Z.le rest ->
  x ∈ window_from d rest n w <-> x ∈ w \/ (x ∈ rest /\ x - d <= n).
Proof.
  intros Hs. split.
  - apply window_from_elem.
  - intros [Hx | [Hx Hn]]; [by apply window_from_incl | by apply window_from_complete].
Qed.

(** The window built at a position of the sorted list is the forward window
    of its date. *)
Lemma anchored_windows_forward (pre l : list Date) n (w : window) :
  StronglySorted Z.le (pre ++ l) ->
  w ∈ anchored_windows l n <->
  exists d, d ∈ l /\ w = forward_window (pre ++ l) n d.
Proof.
  revert pre. induction l as [|d rest IH]; intros pre Hs; simpl.
  - split; [by intros ?%elem_of_nil | by intros (? & ?%elem_of_nil & _)].
  - assert (window_from d rest n {[d]} = forward_window (pre ++ d :: rest) n d)
      as Hhead.
    { apply StronglySorted_app in Hs as (Hle & _ & Hrest).
      apply StronglySorted_inv in Hrest as [Hrest Hall].
      rewrite Forall_forall in Hall.
      apply set_eq. intros x.
      rewrite window_from_spec, elem_of_forward_window, elem_of_singleton by done.
      split.
      - intros [-> | [Hx Hn]]; [by left|]. right.
        pose proof (Hall x Hx). split; [|lia].
        apply elem_of_app; right. by right.
      - intros [-> | [Hx Hn]]; [by left|].
        apply elem_of_app in Hx as [Hx | [-> | Hx]%elem_of_cons].
        + left. pose proof (Hle x d Hx ltac:(left)). lia.
        + by left.
        + right. split; [done | lia]. }
    specialize (IH (pre ++ [d])). rewrite <- (assoc_L (++)) in IH. simpl in IH.
    rewrite elem_of_cons, (IH Hs), Hhead. split.
    + intros [-> | (d' & Hd' & ->)]; [exists d; split; [left | done]|].
      exists d'. split; [by right | done].
    + intros (d' & [-> | Hd']%elem_of_cons & ->); [by left|].
      right. by exists d'.
Qed.

Lemma anchored_forward dates n (w : window) :
  w ∈ anchored_windows (sorted dates) n <->
  exists d, d ∈ dates /\ w = forward_window dates n d.
Proof.
  destruct (sorted_spec dates) as [Hp Hs].
  rewrite (anchored_windows_forward [] (sorted dates) n w Hs). simpl.
  split; intros (d & Hd & ->); exists d.
  - split; [by rewrite <- Hp|]. apply forward_window_ext. intros x. by rewrite Hp.
  - split; [by rewrite Hp|]. apply forward_window_ext. intros x. by rewrite Hp.
Qed.

(** X1: the windows returned are exactly the maximal forward windows: a
    set is returned if and only if it is the forward window of some input
    date and no forward window of an input date strictly includes it. *)
Theorem date_windows_maximal (dates : list Date) (window_days : Z) (w : window) :
  w ∈ date_windows dates window_days <->
  (exists d, d ∈ dates /\ w = forward_window dates window_days d) /\
  (forall d, d ∈ dates -> w ⊆ forward_window dates window_days d ->
     w = forward_window dates window_days d).
Proof.
  destruct (date_windows_anchored dates window_days) as [Hin Hcover].
  pose proof (date_windows_subset_free dates window_days) as Hfree.
  split.
  - intros Hw. split; [by apply anchored_forward, Hin|].
    intros d Hd Hsub.
    destruct (Hcover (forward_window dates window_days d)) as (w2 & Hw2 & Hsub2).
    { apply anchored_forward. by exists d. }
    destruct (decide (w = w2)) as [->|Hne].
    + apply (anti_symm (⊆)); done.
    + exfalso. apply list_elem_of_lookup in Hw as [i Hi], Hw2 as [j Hj].
      apply (Hfree i j w w2 Hi Hj); [congruence | by etrans].
  - intros [Hfw Hmax].
    destruct (Hcover w) as (w2 & Hw2 & Hsub); [by apply anchored_forward|].
    pose proof (Hin w2 Hw2) as Hanch.
    apply anchored_forward in Hanch as (d2 & Hd2 & ->).
    by rewrite (Hmax d2 Hd2 Hsub).
Qed.

(** X2: the order in which the dates are given does not matter. *)
Theorem date_windows_input_order (dates1 dates2 : list Date) (window_days : Z) :
  dates1 ≡ₚ dates2 ->
  date_windows dates1 window_days = date_windows dates2 window_days.
Proof.
  intros Hp. unfold date_windows.
  assert (sorted dates1 = sorted dates2) as ->; [|done].
  destruct (sorted_spec dates1) as [Hp1 Hs1], (sorted_spec dates2) as [Hp2 Hs2].
  apply (StronglySorted_unique Z.le); [done | done |].
  by rewrite Hp1, Hp2.
Qed.

Lemma date_windows_input_order_witness :
  date_windows [8; 1; 3] 5 = date_windows [1; 3; 8] 5.
Proof.
  apply (date_windows_input_order [8; 1; 3] [1; 3; 8] 5).
  apply (Permutation_cons_append [1; 3] 8).
Defined.

(** X3: with [window_days = 0] the windows are the singletons of the input
    dates, each once. *)
Theorem date_windows_zero (dates : list Date) :
  (forall w, w ∈ date_windows dates 0 <-> exists d, d ∈ dates /\ w = {[d]}) /\
  NoDup (date_windows dates 0).
Proof.
  assert (Hfwd : forall w, w ∈ date_windows dates 0 ->
            exists d, d ∈ dates /\ w = {[d]}).
  { intros w Hw. destruct (date_windows_anchored dates 0) as [Hin _].
    apply Hin, anchored_forward in Hw as (d & Hd & ->).
    exists d. split; [done|]. apply set_eq. intros x.
    rewrite elem_of_forward_window, elem_of_singleton. split; [|by left].
    intros [-> | [_ ?]]; [done | lia]. }
  split.
  - intros w. split; [apply Hfwd|].
    intros (d & Hd & ->).
    destruct (date_windows_one dates 0 d Hd) as (w' & Hw' & Hdw').
    destruct (Hfwd w' Hw') as (d' & _ & ->).
    apply elem_of_singleton in Hdw' as ->. done.
  - apply NoDup_alt. intros i j w Hi Hj.
    destruct (decide (i = j)) as [|Hne]; [done|]. exfalso.
    by apply (date_windows_subset_free dates 0 i j w w Hi Hj Hne).
Qed.

Lemma keep_window_absorbed (W : window) (l : list window) :
  (forall w, w ∈ l -> w ⊆ W) -> fold_left keep_window l [W] = [W].
Proof.
  induction l as [|w l IH]; intros Hsub; simpl; [done|].
  unfold keep_window at 2. rewrite decide_True.
  - apply IH. intros w' Hw'. apply Hsub. by right.
  - apply Exists_cons. left. apply Hsub. left.
Qed.

(** X4: when the dates are not empty and no two of them are more than
    [window_days] apart, the result is the single window of all dates. *)
Theorem date_windows_single (dates : list Date) (window_days : Z) :
  dates ≠ [] ->
  (forall a b, a ∈ dates -> b ∈ dates -> b - a <= window_days) ->
  date_windows dates window_days = [list_to_set dates].
Proof.
  intros Hne Hclose.
  set (W := list_to_set dates : gset Z).
  set (A := anchored_windows (sorted dates) window_days).
  assert (HA : forall w, w ∈ A -> w ⊆ W).
  { intros w (d & Hd & ->)%anchored_forward x.
    rewrite elem_of_forward_window. unfold W. rewrite elem_of_list_to_set.
    by intros [-> | [? _]]. }
  assert (HW : W ∈ A).
  { destruct (sorted_spec dates) as [Hp Hs].
    remember (sorted dates) as sd eqn:Hsd in Hp, Hs.
    destruct sd as [|d0 rest].
    { apply Permutation_nil_l in Hp. done. }
    apply StronglySorted_inv in Hs as [_ Hall]. rewrite Forall_forall in Hall.
    apply anchored_forward. exists d0.
    assert (d0 ∈ dates) as Hd0 by (rewrite <- Hp; left).
    split; [done|]. apply set_eq. intros x.
    rewrite elem_of_forward_window. unfold W. rewrite elem_of_list_to_set.
    split; [|by intros [-> | [? _]]].
    intros Hx. right. split; [done|].
    pose proof (Hclose d0 x Hd0 Hx).
    assert (x ∈ d0 :: rest) as [-> | Hin]%elem_of_cons by by rewrite Hp.
    - lia.
    - pose proof (Hall x Hin). lia. }
  unfold date_windows. fold A.
  destruct (sort_by_len_desc_spec A) as [Hp Hs].
  destruct (sort_by_len_desc A) as [|w1 L].
  { rewrite <- Hp in HW. by apply elem_of_nil in HW. }
  apply StronglySorted_inv in Hs as [_ Hall]. rewrite Forall_forall in Hall.
  assert (w1 = W) as ->.
  { apply set_subseteq_size_eq.
    - apply HA. rewrite <- Hp. left.
    - rewrite <- Hp in HW. apply elem_of_cons in HW as [<- | HW]; [done|].
      by apply Hall. }
  simpl. unfold keep_window at 2. rewrite decide_False.
  - simpl. apply keep_window_absorbed. intros w Hw. apply HA.
    rewrite <- Hp. by right.
  - by intros ?%Exists_nil.
Qed.

Lemma date_windows_single_witness :
  date_windows [1; 2; 3] 5 = [list_to_set [1; 2; 3]].
Proof.
  apply (date_windows_single [1; 2; 3] 5).
  - discriminate.
  - intros a b Ha Hb.
    repeat (apply elem_of_cons in Ha as [-> | Ha]);
      try (by apply elem_of_nil in Ha);
      repeat (apply elem_of_cons in Hb as [-> | Hb]);
      try (by apply elem_of_nil in Hb); lia.
Defined.

Lemma keep_window_sorted (l acc : list window) :
  StronglySorted len_ge (acc ++ l) ->
  StronglySorted len_ge (fold_left keep_window l acc).
Proof.
  revert acc. induction l as [|w l IH]; intros acc Hs; simpl.
  - by rewrite app_nil_r in Hs.
  - apply IH. unfold keep_window. case_decide.
    + apply StronglySorted_app in Hs as (Hle & Hacc & Hl).
      apply StronglySorted_inv in Hl as [Hl _].
      apply StronglySorted_app_2; [|done..].
      intros x1 x2 H1 H2. apply Hle; [done | by right].
    + by rewrite <- (assoc_L (++)).
Qed.

(** X5: the windows are returned largest first, and no window is returned
    twice. *)
Theorem date_windows_order (dates : list Date) (window_days : Z) :
  StronglySorted len_ge (date_windows dates window_days) /\
  NoDup (date_windows dates window_days).
Proof.
  split.
  - unfold date_windows. apply keep_window_sorted. simpl.
    apply sort_by_len_desc_spec.
  - apply NoDup_alt. intros i j w Hi Hj.
    destruct (decide (i = j)) as [|Hne]; [done|]. exfalso.
    by apply (date_windows_subset_free dates window_days i j w w Hi Hj Hne).
Qed.

(** * More on the schedules returned by [solve] *)

(** X6: a returned schedule pairs only teams of the parameters that share
    a division. *)
Theorem schedule_within_division (Solve : engine) (params : Parameters)
    (result : list ScheduledFixture) (sf : ScheduledFixture) :
  engine_sound Solve ->
  solve Solve params = Ok result ->
  sf ∈ result ->
  home_team (fixture sf) ∈ teams params /\
  away_team (fixture sf) ∈ teams params /\
  division (home_team (fixture sf)) = division (away_team (fixture sf)).
Proof.
  intros Hsound Hsolved Hsf.
  destruct (solved_facts Solve Hsound params result Hsolved)
    as (value & Hperm & _).
  rewrite Hperm in Hsf. apply elem_of_scheduled in Hsf as (i & c & Hin & _ & ->).
  apply elem_of_numbered, list_elem_of_lookup_2 in Hin.
  apply elem_of_candidates in Hin as [Hreq _].
  by apply elem_of_required_fixtures in Hreq.
Qed.

Lemma schedule_within_division_witness :
  home_team (fixture A_hosts_B) ∈ teams small_params /\
  away_team (fixture A_hosts_B) ∈ teams small_params /\
  division (home_team (fixture A_hosts_B)) =
  division (away_team (fixture A_hosts_B)).
Proof.
  apply (schedule_within_division exhaustive small_params [A_hosts_B; B_hosts_A]).
  - exact exhaustive_sound.
  - vm_compute. reflexivity.
  - left.
Defined.

Lemma sum_vars_mono (P Q : candidate -> Prop) `{!forall c, Decision (P c)}
    `{!forall c, Decision (Q c)} (value : var -> bool) ics :
  (forall c, P c -> Q c) ->
  sum_vars value (vars_where P ics) <= sum_vars value (vars_where Q ics).
Proof.
  intros HPQ. induction ics as [|[i c] ics IH]; [done|].
  rewrite !vars_where_cons, !sum_vars_app. specialize (HPQ c).
  destruct (decide (P c)), (decide (Q c)); simpl; try tauto; try lia.
  unfold bool_to_Z. destruct (value i); lia.
Qed.

Lemma NoDup_count {A} `{EqDecision A} (l : list A) :
  (forall x, (length (filter (fun y => y = x) l) <= 1)%nat) -> NoDup l.
Proof.
  induction l as [|a l IH]; intros Hcount; [constructor|].
  apply NoDup_cons. split.
  - intros Hin. specialize (Hcount a).
    rewrite filter_cons, decide_True in Hcount by done. simpl in Hcount.
    assert (a ∈ filter (fun y => y = a) l) as Ha by by apply list_elem_of_filter.
    destruct (filter (fun y => y = a) l); [by apply elem_of_nil in Ha|].
    simpl in Hcount. lia.
  - apply IH. intros x. specialize (Hcount x).
    rewrite filter_cons in Hcount. case_decide; simpl in Hcount; lia.
Qed.

(** X7: a returned schedule lists no scheduled fixture twice, and holds at
    most one scheduled fixture for any fixture. *)
Theorem schedule_no_duplicates (Solve : engine) (params : Parameters)
    (result : list ScheduledFixture) :
  engine_sound Solve ->
  solve Solve params = Ok result ->
  NoDup result /\
  forall f, (length (filter (fun sf => fixture sf = f) result) <= 1)%nat.
Proof.
  intros Hsound Hsolved.
  destruct (solved_facts Solve Hsound params result Hsolved)
    as (value & Hperm & Hcov & _).
  set (ics := numbered (candidates params)) in *.
  assert (Hle : forall f,
            sum_vars value (vars_where (fun c => c_fixture c = f) ics) <= 1).
  { intros f.
    destruct (vars_where (fun c => c_fixture c = f) ics) as [|v vs] eqn:Hvars;
      [done|].
    rewrite <- Hvars. rewrite (Hcov f v); [done|]. rewrite Hvars. left. }
  split.
  - apply NoDup_count. intros x. apply Nat2Z.inj_le.
    rewrite Hperm, count_scheduled.
    etrans; [|apply (Hle (fixture x))].
    apply sum_vars_mono. by intros c <-.
  - intros f. apply Nat2Z.inj_le. rewrite Hperm, count_scheduled.
    etrans; [|apply (Hle f)]. by apply sum_vars_mono.
Qed.

Lemma schedule_no_duplicates_witness :
  NoDup [A_hosts_B; B_hosts_A] /\
  forall f,
    (length (filter (fun sf => fixture sf = f) [A_hosts_B; B_hosts_A]) <= 1)%nat.
Proof.
  apply (schedule_no_duplicates exhaustive small_params [A_hosts_B; B_hosts_A]).
  - exact exhaustive_sound.
  - vm_compute. reflexivity.
Defined.

(** X8: whatever [min_gap_days], negative included, a team never plays two
    different matches of a returned schedule on one date. *)
Theorem one_match_per_day (Solve : engine) (params : Parameters)
    (result : list ScheduledFixture) (t : Team) (sf1 sf2 : ScheduledFixture) :
  engine_sound Solve ->
  solve Solve params = Ok result ->
  sf1 ∈ result -> sf2 ∈ result -> plays t sf1 -> plays t sf2 -> sf1 ≠ sf2 ->
  date sf1 ≠ date sf2.
Proof.
  intros Hsound Hsolved H1 H2 Hp1 Hp2 Hne Hdate.
  destruct (solved_facts Solve Hsound params result Hsolved)
    as (value & Hperm & _ & _ & Hday & _).
  rewrite Hperm in H1, H2.
  apply elem_of_scheduled in H1 as (i1 & c1 & Hin1 & Hv1 & ->).
  apply elem_of_scheduled in H2 as (i2 & c2 & Hin2 & Hv2 & ->).
  simpl in Hdate.
  pose proof (Hday t (c_date c1)) as Hsum.
  pose proof (sum_vars_two value
    (team_date_vars t (c_date c1) (numbered (candidates params))) i1 i2) as Htwo.
  assert (2 <= sum_vars value
    (team_date_vars t (c_date c1) (numbered (candidates params)))); [|lia].
  apply Htwo; try done.
  - apply elem_of_team_date_vars. by exists c1.
  - apply elem_of_team_date_vars. by exists c2.
  - intros ->. apply elem_of_numbered in Hin1, Hin2. congruence.
Qed.

Lemma one_match_per_day_witness : date A_hosts_B ≠ date B_hosts_A.
Proof.
  apply (one_match_per_day exhaustive negative_gap_params
           [A_hosts_B; B_hosts_A] team_A).
  - exact exhaustive_sound.
  - vm_compute. reflexivity.
  - left.
  - right. left.
  - left. reflexivity.
  - right. reflexivity.
  - vm_compute. discriminate.
Defined.

(** X9: a returned schedule never sets a team against itself, even when
    the collection of teams lists a team twice. *)
Theorem no_team_plays_itself (Solve : engine) (params : Parameters)
    (result : list ScheduledFixture) (sf : ScheduledFixture) :
  engine_sound Solve ->
  solve Solve params = Ok result ->
  sf ∈ result ->
  home_team (fixture sf) ≠ away_team (fixture sf).
Proof.
  intros Hsound Hsolved Hsf Heq.
  destruct (solved_facts Solve Hsound params result Hsolved)
    as (value & Hperm & _ & _ & Hday & _).
  rewrite Hperm in Hsf. apply elem_of_scheduled in Hsf as (i & c & Hin & Hv & ->).
  simpl in Heq.
  pose proof (team_date_vars_twice value _ (c_home c) (c_date c) i c
                Hin eq_refl (eq_sym Heq) eq_refl Hv).
  pose proof (Hday (c_home c) (c_date c)). lia.
Qed.

Lemma no_team_plays_itself_witness :
  home_team (fixture A_hosts_B) ≠ away_team (fixture A_hosts_B).
Proof.
  apply (no_team_plays_itself exhaustive small_params [A_hosts_B; B_hosts_A]).
  - exact exhaustive_sound.
  - vm_compute. reflexivity.
  - left.
Defined.

(** X10: with [max_concurrent_home_matches <= 0] the only schedule [solve]
    can return is the empty one. *)
Theorem no_capacity_no_schedule (Solve : engine) (params : Parameters)
    (result : list ScheduledFixture) :
  engine_sound Solve ->
  solve Solve params = Ok result ->
  max_concurrent_home_matches params <= 0 ->
  result = [].
Proof.
  intros Hsound Hsolved Hcap.
  destruct (solved_facts Solve Hsound params result Hsolved)
    as (value & Hperm & _ & _ & _ & Hhost & _).
  destruct result as [|sf result]; [done|]. exfalso.
  assert (sf ∈ sf :: result) as Hsf by left.
  rewrite Hperm in Hsf. apply elem_of_scheduled in Hsf as (i & c & Hin & Hv & _).
  assert (i ∈ vars_where
    (fun c0 => (club (c_home c0), c_date c0) = (club (c_home c), c_date c))
    (numbered (candidates params))) as Hi.
  { apply elem_of_vars_where. by exists c. }
  pose proof (Hhost _ i Hi). pose proof (sum_vars_one value _ i Hi Hv). lia.
Qed.

Lemma no_capacity_no_schedule_witness : @nil ScheduledFixture = [].
Proof.
  apply (no_capacity_no_schedule exhaustive negative_capacity_params []).
  - exact exhaustive_sound.
  - vm_compute. reflexivity.
  - vm_compute. discriminate.
Defined.

(** X11: with [max_concurrent_home_matches <= 0], [solve] raises as soon as
    two distinct teams of one division have an eligible date. *)
Theorem no_capacity_raises (Solve : engine) (params : Parameters)
    (home away : Team) :
  engine_sound Solve ->
  max_concurrent_home_matches params <= 0 ->
  home ∈ teams params -> away ∈ teams params -> home ≠ away ->
  division home = division away ->
  eligible_dates params home away ≠ [] ->
  exists e, solve Solve params = Raise e.
Proof.
  intros Hsound Hcap Hh Ha Hne Hdiv Hd.
  destruct (solve Solve params) as [result|e] eqn:Hsolved; [|by exists e].
  exfalso.
  destruct (solved_facts Solve Hsound params result Hsolved)
    as (value & _ & Hcov & _ & _ & Hhost & _).
  destruct (fixture_has_var params home away) as [v Hv]; [|done|].
  { by apply elem_of_required_fixtures. }
  pose proof (Hcov _ v Hv) as Hsum.
  destruct (sum_vars_pos value _ ltac:(rewrite Hsum; lia)) as (v' & Hv' & Hval).
  apply elem_of_vars_where in Hv' as (c & Hin & _).
  assert (v' ∈ vars_where
    (fun c0 => (club (c_home c0), c_date c0) = (club (c_home c), c_date c))
    (numbered (candidates params))) as Hi.
  { apply elem_of_vars_where. by exists c. }
  pose proof (Hhost _ v' Hi). pose proof (sum_vars_one value _ v' Hi Hval). lia.
Qed.

Lemma no_capacity_raises_witness :
  exists e, solve exhaustive zero_capacity_params = Raise e.
Proof.
  apply (no_capacity_raises exhaustive zero_capacity_params team_A team_B).
  - exact exhaustive_sound.
  - vm_compute. discriminate.
  - left.
  - right. left.
  - vm_compute. discriminate.
  - reflexivity.
  - vm_compute. discriminate.
Defined.

(** * genfixtures.py: the calendar and the unit tests of [TestGenDates] *)

Example civil_year_month_samples :
  map civil_year_month
    [1; 365; 366; 1461; 1462; 36524; 36525; 146097; 146098; 563565;
     738945; 738946; 739252; 2387415; 3652059] =
  [(1, 1); (1, 12); (2, 1); (4, 12); (5, 1); (100, 12); (101, 1); (400, 12);
   (401, 1); (1543, 12); (2024, 2); (2024, 3); (2025, 1); (6537, 7); (9999, 12)].
Proof. vm_compute. reflexivity. Qed.

Example test_basic_weekday_generation :
  gen_dates civil_year_month 739257 739271 MONDAY None =
  Some [739257; 739264; 739271].
Proof. vm_compute. reflexivity. Qed.

Example test_exclude_first_occurrence :
  gen_dates civil_year_month 739252 739341 MONDAY (Some [1]) =
  Some [739264; 739271; 739278; 739292; 739299; 739306;
        739320; 739327; 739334; 739341].
Proof. vm_compute. reflexivity. Qed.

Example test_exclude_multiple_occurrences :
  gen_dates civil_year_month 739252 739310 TUESDAY (Some [1; 3]) =
  Some [739265; 739279; 739293; 739307].
Proof. vm_compute. reflexivity. Qed.

Example test_no_matching_weekdays :
  gen_dates civil_year_month 739257 739258 WEDNESDAY None = Some [].
Proof. vm_compute. reflexivity. Qed.

(** * [gen_dates] *)

Lemma add_days_Some d n d' :
  add_days d n = Some d' <-> d' = d + n /\ 1 <= d + n <= MAXORDINAL.
Proof.
  unfold add_days. case_decide; split.
  - by intros [= <-].
  - by intros [-> _].
  - done.
  - by intros [_ ?].
Qed.

Lemma weekday_range d : 0 <= weekday d < 7.
Proof. unfold weekday. apply Z.mod_pos_bound. lia. Qed.

Lemma weekday_same d d' : weekday d = weekday d' <-> (d' - d) mod 7 = 0.
Proof. unfold weekday. split; intros H; Z.div_mod_to_equations; lia. Qed.

(** What the first loop returns is the first date on or after the start
    with the wanted weekday. *)
Lemma seek_weekday_Some fuel current dow d :
  seek_weekday fuel current dow = Some d ->
  current <= d /\ weekday d = dow /\
  (forall x, current <= x < d -> weekday x ≠ dow) /\
  (d = current \/ d <= MAXORDINAL).
Proof.
  revert current. induction fuel as [|fuel IH]; intros current; simpl;
    (case_decide as Hw; [intros [= <-]; repeat split; try done; try lia; auto|]);
    destruct (add_days current 1) as [next|] eqn:Hadd; try done.
  apply add_days_Some in Hadd as [-> Hnext].
  intros (Hle & Hd & Hmin & Hmax)%IH.
  split; [lia|]. split; [done|]. split.
  - intros x Hx. destruct (decide (x = current)) as [->|]; [done|].
    apply Hmin. lia.
  - right. destruct Hmax as [-> | ?]; lia.
Qed.

Lemma seek_weekday_finds (n fuel : nat) current dow :
  (exists j, 0 <= j <= Z.of_nat n /\ weekday (current + j) = dow) ->
  (n <= fuel)%nat -> 1 <= current -> current + Z.of_nat n <= MAXORDINAL ->
  exists d, seek_weekday fuel current dow = Some d.
Proof.
  revert fuel current.
  induction n as [|n IH]; intros fuel current (j & Hj & Hw) Hfuel H1 Hmax.
  - assert (j = 0) as -> by lia. rewrite Z.add_0_r in Hw.
    exists current. destruct fuel; simpl; by rewrite decide_True.
  - destruct (decide (weekday current = dow)) as [Hnow|Hnot].
    { exists current. destruct fuel; simpl; by rewrite decide_True. }
    destruct fuel as [|fuel]; [lia|]. simpl. rewrite decide_False by done.
    unfold add_days. rewrite decide_True by lia.
    apply IH; [|lia..].
    exists (j - 1). split.
    + destruct (decide (j = 0)) as [->|]; [|lia].
      by rewrite Z.add_0_r in Hw.
    + by replace (current + 1 + (j - 1)) with (current + j) by lia.
Qed.

Lemma seek_weekday_invalid fuel current dow :
  ¬ (0 <= dow < 7) -> seek_weekday fuel current dow = None.
Proof.
  intros Hdow. revert current.
  induction fuel as [|fuel IH]; intros current; simpl;
    (rewrite decide_False by (pose proof (weekday_range current); lia));
    destruct (add_days current 1); done.
Qed.

Section weekly_facts.
Variable year_month : Date -> Z * Z.

(** What the second loop appends: dates of the weekly sequence up to
    [to_date], in increasing order. *)
Lemma weekly_Some fuel to_date exclude current cm mo result l :
  weekly year_month fuel to_date exclude current cm mo result = Some l ->
  exists added,
    l = result ++ added /\
    (forall d, d ∈ added -> current <= d <= to_date /\ (d - current) mod 7 = 0) /\
    StronglySorted Z.lt added.
Proof.
  revert current cm mo result.
  induction fuel as [|fuel IH]; intros current cm mo result; simpl;
    (case_decide as Hto;
     [|intros [= <-]; exists []; rewrite app_nil_r;
       split; [done|]; split; [by intros d ?%elem_of_nil | constructor]]);
    destruct (add_days current 7) as [next|] eqn:Hadd; try done.
  apply add_days_Some in Hadd as [-> Hnext].
  intros (added & -> & Hin & Hs)%IH.
  assert (Hlater : forall d, d ∈ added ->
            current <= d <= to_date /\ (d - current) mod 7 = 0).
  { intros d Hd. destruct (Hin d Hd) as [? Hmod]. split; [lia|].
    revert Hmod. clear. intros Hmod. Z.div_mod_to_equations. lia. }
  case_decide.
  - by exists added.
  - exists (current :: added). split; [by rewrite <- (assoc_L (++))|]. split.
    + intros d [-> | Hd]%elem_of_cons; [|by apply Hlater].
      split; [lia|]. by rewrite Z.sub_diag.
    + constructor; [done|]. apply Forall_forall. intros d Hd.
      destruct (Hin d Hd). lia.
Qed.

(** Occurrence numbers start at 1, so a list of exclusions without a
    positive number drops nothing. *)
Lemma weekly_complete fuel to_date exclude current cm mo result l :
  weekly year_month fuel to_date exclude current cm mo result = Some l ->
  0 <= mo -> Forall (fun k => k <= 0) exclude ->
  forall d, current <= d <= to_date -> (d - current) mod 7 = 0 -> d ∈ l.
Proof.
  revert current cm mo result.
  induction fuel as [|fuel IH]; intros current cm mo result; simpl;
    (case_decide as Hto; [|intros _ _ _ d ?; lia]);
    destruct (add_days current 7) as [next|] eqn:Hadd; try done.
  apply add_days_Some in Hadd as [-> Hnext].
  intros Hl Hmo Hex d Hd Hmod.
  set (mo' := (if bool_decide (cm ≠ year_month current) then 0 else mo) + 1) in *.
  assert (1 <= mo') as Hmo'.
  { unfold mo'. case_bool_decide; lia. }
  rewrite decide_False in Hl.
  2:{ intros Hin. rewrite Forall_forall in Hex. specialize (Hex _ Hin). lia. }
  destruct (decide (d = current)) as [->|Hne].
  - apply weekly_Some in Hl as (added & -> & _).
    apply elem_of_app; left. apply elem_of_app; right. left.
  - eapply IH; [exact Hl | lia | done | |].
    + assert (7 <= d - current); [|lia].
      revert Hmod Hd Hne. clear. intros. Z.div_mod_to_equations. lia.
    + revert Hmod. clear. intros Hmod. Z.div_mod_to_equations. lia.
Qed.

(** With at least a week between [to_date] and [date.max] the second loop
    ends without overflow. *)
Lemma weekly_returns fuel to_date exclude current cm mo result :
  MAXORDINAL - current <= Z.of_nat fuel -> 1 <= current ->
  to_date + 7 <= MAXORDINAL ->
  exists l, weekly year_month fuel to_date exclude current cm mo result = Some l.
Proof.
  revert current cm mo result.
  induction fuel as [|fuel IH]; intros current cm mo result Hfuel H1 Hto; simpl.
  - rewrite decide_False by lia. by eexists.
  - case_decide; [|by eexists].
    unfold add_days. rewrite decide_True by lia. apply IH; lia.
Qed.

(** With [to_date = date.max] the second loop overflows. *)
Lemma weekly_overflow fuel exclude current cm mo result :
  current <= MAXORDINAL ->
  weekly year_month fuel MAXORDINAL exclude current cm mo result = None.
Proof.
  revert current cm mo result.
  induction fuel as [|fuel IH]; intros current cm mo result Hmax; simpl;
    rewrite decide_True by done;
    destruct (add_days current 7) as [next|] eqn:Hadd; try done.
  apply add_days_Some in Hadd as [-> Hnext]. apply IH. lia.
Qed.
End weekly_facts.

(** X12: the dates returned by [gen_dates] all have the wanted weekday, lie
    between [from_date] and [to_date], and come in strictly increasing
    order. *)
Theorem gen_dates_sound (year_month : Date -> Z * Z) (from_date to_date : Date)
    (day_of_week : Z) (exclude : option (list Z)) (l : list Date) :
  gen_dates year_month from_date to_date day_of_week exclude = Some l ->
  (forall d, d ∈ l -> weekday d = day_of_week /\ from_date <= d <= to_date) /\
  StronglySorted Z.lt l.
Proof.
  unfold gen_dates.
  destruct (seek_weekday _ from_date day_of_week) as [c0|] eqn:Hseek; [|done].
  apply seek_weekday_Some in Hseek as (Hfrom & Hw & _).
  intros (added & -> & Hin & Hs)%weekly_Some. simpl. split; [|done].
  intros d Hd. destruct (Hin d Hd) as [Hrange Hmod]. split; [|lia].
  rewrite <- Hw. symmetry. by apply weekday_same.
Qed.

Lemma gen_dates_sound_witness :
  (forall d, d ∈ [739257; 739264; 739271] ->
     weekday d = MONDAY /\ 739257 <= d <= 739271) /\
  StronglySorted Z.lt [739257; 739264; 739271].
Proof.
  apply (gen_dates_sound civil_year_month 739257 739271 MONDAY None).
  vm_compute. reflexivity.
Defined.

(** X13: when the exclusions hold no positive number (in particular when
    none is given), [gen_dates] returns every date of the range that has
    the wanted weekday. *)
Theorem gen_dates_complete (year_month : Date -> Z * Z)
    (from_date to_date : Date) (day_of_week : Z) (exclude : option (list Z))
    (l : list Date) (d : Date) :
  gen_dates year_month from_date to_date day_of_week exclude = Some l ->
  Forall (fun k => k <= 0) (default [] exclude) ->
  from_date <= d <= to_date -> weekday d = day_of_week ->
  d ∈ l.
Proof.
  unfold gen_dates.
  destruct (seek_weekday _ from_date day_of_week) as [c0|] eqn:Hseek; [|done].
  apply seek_weekday_Some in Hseek as (Hfrom & Hw & Hmin & _).
  intros Hl Hex Hd Hwd.
  assert (c0 <= d) as Hc0.
  { destruct (Z_le_gt_dec c0 d) as [|Hlt]; [done|].
    exfalso. apply (Hmin d); [lia | done]. }
  eapply weekly_complete; [exact Hl | done | done | lia |].
  apply weekday_same. congruence.
Qed.

Lemma gen_dates_complete_witness :
  739264 ∈ [739257; 739264; 739271].
Proof.
  apply (gen_dates_complete civil_year_month 739257 739271 MONDAY (Some [0])
           [739257; 739264; 739271] 739264).
  - vm_compute. reflexivity.
  - repeat constructor. vm_compute. discriminate.
  - lia.
  - reflexivity.
Defined.

(** X14: a [day_of_week] outside 0..6 is never met: the first loop runs
    into [date.max] and [gen_dates] raises [OverflowError]. *)
Theorem gen_dates_invalid_weekday (year_month : Date -> Z * Z)
    (from_date to_date : Date) (day_of_week : Z) (exclude : option (list Z)) :
  day_of_week < 0 \/ 6 < day_of_week ->
  gen_dates year_month from_date to_date day_of_week exclude = None.
Proof.
  intros Hdow. unfold gen_dates. rewrite seek_weekday_invalid; [done | lia].
Qed.

Lemma gen_dates_invalid_weekday_witness :
  gen_dates civil_year_month 739257 739271 7 None = None.
Proof.
  apply (gen_dates_invalid_weekday civil_year_month 739257 739271 7 None).
  right. lia.
Defined.

(** X15: with [to_date = date.max], [gen_dates] raises [OverflowError]
    whatever the other arguments: a loop steps past [date.max] before it
    can end. *)
Theorem gen_dates_to_max (year_month : Date -> Z * Z) (from_date : Date)
    (day_of_week : Z) (exclude : option (list Z)) :
  from_date <= MAXORDINAL ->
  gen_dates year_month from_date MAXORDINAL day_of_week exclude = None.
Proof.
  intros Hfrom. unfold gen_dates.
  destruct (seek_weekday _ from_date day_of_week) as [c0|] eqn:Hseek; [|done].
  apply seek_weekday_Some in Hseek as (_ & _ & _ & Hmax).
  apply weekly_overflow. destruct Hmax as [-> | ?]; done.
Qed.

Lemma gen_dates_to_max_witness :
  gen_dates civil_year_month MAXORDINAL MAXORDINAL 4 None = None.
Proof.
  apply (gen_dates_to_max civil_year_month MAXORDINAL 4 None).
  vm_compute. discriminate.
Defined.

(** X16: [gen_dates] returns a list, without [OverflowError], when
    [day_of_week] is in 0..6, [from_date] is at least 6 days and [to_date]
    at least 7 days before [date.max]. *)
Theorem gen_dates_returns (year_month : Date -> Z * Z)
    (from_date to_date : Date) (day_of_week : Z) (exclude : option (list Z)) :
  0 <= day_of_week <= 6 ->
  1 <= from_date -> from_date + 6 <= MAXORDINAL ->
  to_date + 7 <= MAXORDINAL ->
  exists l, gen_dates year_month from_date to_date day_of_week exclude = Some l.
Proof.
  intros Hdow H1 Hfrom Hto. unfold gen_dates.
  destruct (seek_weekday_finds 6 (Z.to_nat (MAXORDINAL - from_date))
              from_date day_of_week) as [c0 Hseek]; try lia.
  { exists ((day_of_week - weekday from_date) mod 7). split.
    - pose proof (Z.mod_pos_bound (day_of_week - weekday from_date) 7). lia.
    - unfold weekday. Z.div_mod_to_equations. lia. }
  rewrite Hseek.
  apply seek_weekday_Some in Hseek as (Hle & _ & _ & Hmax).
  apply weekly_returns; [|lia..].
  assert (c0 <= MAXORDINAL) by (destruct Hmax as [-> | ?]; lia). lia.
Qed.

Lemma gen_dates_returns_witness :
  exists l, gen_dates civil_year_month 739495 739766 THURSDAY (Some [1]) = Some l.
Proof.
  apply (gen_dates_returns civil_year_month 739495 739766 THURSDAY (Some [1]));
    unfold THURSDAY, MAXORDINAL; lia.
Defined.

Section weekly_occurrences.
Variable year_month : Date -> Z * Z.

Lemma weekly_first fuel to_date exclude current cm l :
  weekly year_month fuel to_date exclude current cm 0 [] = Some l ->
  current ∈ l <-> current <= to_date /\ 1 ∉ exclude.
Proof.
  destruct fuel as [|fuel]; simpl;
    (case_decide as Hto;
     [|intros [= <-]; split; [by intros ?%elem_of_nil | intros [? _]; lia]]);
    destruct (add_days current 7) as [next|] eqn:Hadd; try done.
  apply add_days_Some in Hadd as [-> Hnext].
  replace ((if bool_decide (cm ≠ year_month current) then 0 else 0) + 1)
    with 1 by (by case_bool_decide).
  intros (added & -> & Hin & _)%weekly_Some.
  case_decide as Hex; simpl.
  - split; [|by intros [_ ?]].
    intros Hc. destruct (Hin current Hc). lia.
  - split; [done|]. intros _. left.
Qed.

Lemma weekly_sublist fuel to_date exclude current cm mo result l :
  weekly year_month fuel to_date exclude current cm mo result = Some l ->
  forall result0, exists added added0,
    l = result ++ added /\
    weekly year_month fuel to_date [] current cm mo result0 =
      Some (result0 ++ added0) /\
    added `sublist_of` added0.
Proof.
  revert current cm mo result.
  induction fuel as [|fuel IH]; intros current cm mo result; simpl;
    (case_decide as Hto;
     [|intros [= <-] result0; exists [], []; by rewrite !app_nil_r]);
    destruct (add_days current 7) as [next|] eqn:Hadd; try done.
  intros Hl result0.
  destruct (IH _ _ _ _ Hl (result0 ++ [current])) as (a & a0 & -> & -> & Hsub).
  case_decide.
  - exists a, (current :: a0). split; [done|].
    split; [by rewrite <- (assoc_L (++))|]. by apply sublist_cons.
  - exists (current :: a), (current :: a0).
    split; [by rewrite <- (assoc_L (++))|].
    split; [by rewrite <- (assoc_L (++))|]. by apply sublist_skip.
Qed.

(** With the first occurrence excluded, a date of the weekly sequence is
    kept exactly when the week before is in the sequence and in the same
    month. *)
Lemma weekly_exclude_first fuel to_date current cm mo result l :
  weekly year_month fuel to_date [1] current cm mo result = Some l ->
  0 <= mo -> mo = 0 \/ cm = year_month (current - 7) ->
  forall d,
    d ∈ l <->
    d ∈ result \/
    (current <= d <= to_date /\ (d - current) mod 7 = 0 /\
     if decide (d = current) then mo ≠ 0 /\ cm = year_month current
     else year_month (d - 7) = year_month d).
Proof.
  revert current cm mo result.
  induction fuel as [|fuel IH]; intros current cm mo result; simpl;
    (case_decide as Hto; [|intros [= <-] _ _ d; split; [auto | intros [?|[? _]]; [done | lia]]]);
    destruct (add_days current 7) as [next|] eqn:Hadd; try done.
  apply add_days_Some in Hadd as [-> Hnext].
  intros Hl Hmo Hcm d.
  set (changed := bool_decide (cm ≠ year_month current)) in *.
  set (mo' := (if changed then 0 else mo) + 1) in *.
  set (cm' := if changed then year_month current else cm) in *.
  assert (cm' = year_month current) as Hcm'.
  { unfold cm', changed. case_bool_decide as Hc; [done|].
    by destruct (decide (cm = year_month current)). }
  assert (1 <= mo') as Hmo' by (unfold mo'; destruct changed; lia).
  assert (mo' = 1 <-> ¬ (mo ≠ 0 /\ cm = year_month current)) as Hfirst.
  { unfold mo', changed. case_bool_decide as Hc; [tauto|].
    assert (cm = year_month current)
      by by destruct (decide (cm = year_month current)).
    split; [intros ? [? _]; lia | intros Hn].
    destruct (decide (mo = 0)); [lia | tauto]. }
  rewrite (IH _ _ _ _ Hl) by
    (first [lia | right; rewrite Hcm'; f_equal; lia]).
  replace (current + 7 - 7) with current in * by lia.
  assert (Hres : d ∈ (if decide (mo' ∈ [1]) then result else result ++ [current])
                 <-> d ∈ result \/ (d = current /\ mo' ≠ 1)).
  { case_decide as Hin.
    - apply list_elem_of_singleton in Hin. split; [auto | intros [?|[_ ?]]; done].
    - rewrite list_elem_of_singleton in Hin.
      rewrite elem_of_app, list_elem_of_singleton. tauto. }
  rewrite Hres. clear Hres Hl IH.
  destruct (decide (d = current)) as [->|Hne].
  - rewrite Z.sub_diag. split.
    + intros [[? | [_ Hn]] | [? _]]; [by left | | lia].
      right. split; [lia|]. split; [done|].
      destruct (decide (mo ≠ 0 /\ cm = year_month current)) as [|Hno]; [done|].
      by apply Hfirst in Hno.
    + intros [? | (_ & _ & Hn)]; [left; by left|]. left. right.
      split; [done|]. intros H1. by apply Hfirst in H1.
  - split.
    + intros [[? | [? _]] | (Hr & Hmod & Hym)]; [by left | done |].
      right. split; [lia|]. split.
      { revert Hmod. clear. intros. Z.div_mod_to_equations. lia. }
      destruct (decide (d = current + 7)) as [->|]; [|done].
      replace (current + 7 - 7) with current by lia.
      destruct Hym as [_ Hym]. congruence.
    + intros [? | (Hr & Hmod & Hym)]; [left; by left|]. right.
      assert (7 <= d - current).
      { revert Hmod Hr Hne. clear. intros. Z.div_mod_to_equations. lia. }
      split; [lia|]. split.
      { revert Hmod. clear. intros. Z.div_mod_to_equations. lia. }
      destruct (decide (d = current + 7)) as [->|]; [|done].
      replace (current + 7 - 7) with current in Hym by lia.
      split; [lia | congruence].
Qed.
End weekly_occurrences.

(** X17: occurrences are counted from [from_date], not from the start of
    the month: the first date on or after [from_date] with the wanted
    weekday is always occurrence 1, so it is returned exactly when it is
    not after [to_date] and 1 is not excluded. *)
Theorem gen_dates_first_occurrence (year_month : Date -> Z * Z)
    (from_date to_date : Date) (day_of_week : Z) (exclude : option (list Z))
    (l : list Date) (d : Date) :
  gen_dates year_month from_date to_date day_of_week exclude = Some l ->
  from_date <= d -> weekday d = day_of_week ->
  (forall x, from_date <= x < d -> weekday x ≠ day_of_week) ->
  d ∈ l <-> d <= to_date /\ 1 ∉ default [] exclude.
Proof.
  unfold gen_dates.
  destruct (seek_weekday _ from_date day_of_week) as [c0|] eqn:Hseek; [|done].
  apply seek_weekday_Some in Hseek as (Hfrom & Hw & Hmin & _).
  intros Hl Hd Hwd Hfirst.
  assert (d = c0) as ->.
  { destruct (Z.lt_trichotomy d c0) as [Hlt | [? | Hgt]]; [|done|].
    - exfalso. apply (Hmin d); [lia | done].
    - exfalso. apply (Hfirst c0); [lia | done]. }
  by apply weekly_first in Hl.
Qed.

Lemma gen_dates_first_occurrence_witness :
  739257 ∈ [739264; 739271; 739278; 739292; 739299; 739306;
            739320; 739327; 739334; 739341] <->
  739257 <= 739341 /\ 1 ∉ default [] (Some [1]).
Proof.
  apply (gen_dates_first_occurrence civil_year_month 739252 739341 MONDAY).
  - vm_compute. reflexivity.
  - lia.
  - reflexivity.
  - intros x Hx. unfold weekday, MONDAY. Z.div_mod_to_equations. lia.
Defined.

(** X18: excluding occurrences only removes dates: what [gen_dates] returns
    with exclusions is a sublist of what it returns without. *)
Theorem gen_dates_exclusions_sublist (year_month : Date -> Z * Z)
    (from_date to_date : Date) (day_of_week : Z) (exclude : option (list Z))
    (l : list Date) :
  gen_dates year_month from_date to_date day_of_week exclude = Some l ->
  exists l0,
    gen_dates year_month from_date to_date day_of_week None = Some l0 /\
    l `sublist_of` l0.
Proof.
  unfold gen_dates.
  destruct (seek_weekday _ from_date day_of_week) as [c0|] eqn:Hseek; [|done].
  intros Hl.
  destruct (weekly_sublist _ _ _ _ _ _ _ _ _ Hl []) as (a & a0 & -> & Hl0 & Hsub).
  exists a0. by split.
Qed.

Lemma gen_dates_exclusions_sublist_witness :
  exists l0,
    gen_dates civil_year_month 739252 739310 TUESDAY None = Some l0 /\
    [739265; 739279; 739293; 739307] `sublist_of` l0.
Proof.
  apply (gen_dates_exclusions_sublist civil_year_month 739252 739310 TUESDAY
           (Some [1; 3])).
  vm_compute. reflexivity.
Defined.

(** X19: with the first occurrence excluded, [gen_dates] returns exactly
    the dates up to [to_date] with the wanted weekday whose previous week
    is not before [from_date] and falls in the same month. *)
Theorem gen_dates_exclude_first (year_month : Date -> Z * Z)
    (from_date to_date : Date) (day_of_week : Z) (l : list Date) (d : Date) :
  gen_dates year_month from_date to_date day_of_week (Some [1]) = Some l ->
  d ∈ l <->
  from_date <= d - 7 /\ d <= to_date /\ weekday d = day_of_week /\
  year_month (d - 7) = year_month d.
Proof.
  unfold gen_dates.
  destruct (seek_weekday _ from_date day_of_week) as [c0|] eqn:Hseek; [|done].
  apply seek_weekday_Some in Hseek as (Hfrom & Hw & Hmin & _).
  intros Hl. simpl in Hl.
  rewrite (weekly_exclude_first _ _ _ _ _ _ _ _ Hl) by (lia || by left).
  split.
  - intros [?%elem_of_nil | (Hr & Hmod & Hym)]; [done|].
    destruct (decide (d = c0)) as [->|Hne]; [by destruct Hym|].
    assert (7 <= d - c0).
    { revert Hmod Hr Hne. clear. intros. Z.div_mod_to_equations. lia. }
    split; [lia|]. split; [lia|]. split; [|done].
    rewrite <- Hw. symmetry. by apply weekday_same.
  - intros (Hprev & Hto & Hwd & Hym). right.
    assert (weekday (d - 7) = day_of_week) as Hwprev.
    { rewrite <- Hwd. apply weekday_same.
      replace (d - (d - 7)) with 7 by lia. done. }
    assert (c0 <= d - 7) as Hc0.
    { destruct (Z_le_gt_dec c0 (d - 7)) as [|Hlt]; [done|].
      exfalso. apply (Hmin (d - 7)); [lia | done]. }
    split; [lia|]. split; [apply weekday_same; congruence|].
    by rewrite decide_False by lia.
Qed.

Lemma gen_dates_exclude_first_witness :
  739264 ∈ [739264; 739271; 739278; 739292; 739299; 739306;
            739320; 739327; 739334; 739341] <->
  739252 <= 739264 - 7 /\ 739264 <= 739341 /\ weekday 739264 = MONDAY /\
  civil_year_month (739264 - 7) = civil_year_month 739264.
Proof.
  apply (gen_dates_exclude_first civil_year_month 739252 739341 MONDAY).
  vm_compute. reflexivity.
Defined.

(** * [remove_random] *)

Lemma length_slice_to {A} (k : Z) (l : list A) :
  0 <= k <= Z.of_nat (length l) -> length (slice_to k l) = Z.to_nat k.
Proof.
  intros Hk. unfold slice_to. rewrite decide_False by lia.
  rewrite length_take. lia.
Qed.

Lemma slice_to_sublist {A} (k : Z) (l : list A) : slice_to k l `sublist_of` l.
Proof. unfold slice_to. case_decide; apply sublist_take. Qed.

(** X20: whatever permutation the shuffle produces, [remove_random] returns
    dates of its input, each no more often than given, in ascending order;
    it returns [keep] of them when [0 <= keep <= len(dates)], and all of
    them, sorted, when [keep >= len(dates)]. *)
Theorem remove_random_spec (shuffle : list Date -> list Date)
    (dates : list Date) (keep : Z) :
  (forall l, shuffle l ≡ₚ l) ->
  StronglySorted Z.le (remove_random shuffle dates keep) /\
  remove_random shuffle dates keep ⊆+ dates /\
  (0 <= keep <= Z.of_nat (length dates) ->
     length (remove_random shuffle dates keep) = Z.to_nat keep) /\
  (Z.of_nat (length dates) <= keep ->
     remove_random shuffle dates keep = sorted dates).
Proof.
  intros Hshuffle. unfold remove_random.
  destruct (sorted_spec (slice_to keep (shuffle dates))) as [Hp Hs].
  split; [done|]. split; [|split].
  - rewrite Hp. etrans; [apply sublist_submseteq, slice_to_sublist|].
    by rewrite (Hshuffle dates).
  - intros Hk. rewrite Hp. apply length_slice_to.
    by rewrite (Permutation_length (Hshuffle dates)).
  - intros Hk. destruct (sorted_spec dates) as [Hp0 Hs0].
    apply (StronglySorted_unique Z.le); [done | done |].
    rewrite Hp, Hp0. unfold slice_to. rewrite decide_False by lia.
    rewrite take_ge; [apply Hshuffle|].
    rewrite (Permutation_length (Hshuffle dates)). lia.
Qed.

Lemma remove_random_spec_witness :
  StronglySorted Z.le (remove_random (fun l => l) [1; 8; 15; 22; 29] 2) /\
  remove_random (fun l => l) [1; 8; 15; 22; 29] 2 ⊆+ [1; 8; 15; 22; 29] /\
  (0 <= 2 <= Z.of_nat (length [1; 8; 15; 22; 29]) ->
     length (remove_random (fun l => l) [1; 8; 15; 22; 29] 2) = Z.to_nat 2) /\
  (Z.of_nat (length [1; 8; 15; 22; 29]) <= 2 ->
     remove_random (fun l => l) [1; 8; 15; 22; 29] 2 = sorted [1; 8; 15; 22; 29]).
Proof.
  apply (remove_random_spec (fun l => l) [1; 8; 15; 22; 29] 2).
  intros l. reflexivity.
Defined.

(** * The number of windows *)

Lemma length_anchored_windows dates n :
  length (anchored_windows dates n) = length dates.
Proof. induction dates as [|d rest IH]; simpl; [done | by rewrite IH]. Qed.

Lemma length_keep_window (l acc : list window) :
  (length (fold_left keep_window l acc) <= length acc + length l)%nat.
Proof.
  revert acc. induction l as [|w l IH]; intros acc; simpl; [lia|].
  etrans; [apply IH|]. unfold keep_window. case_decide; [lia|].
  rewrite length_app. simpl. lia.
Qed.

(** X21: [date_windows] returns at most one window per date given, and no
    window at all exactly when no date is given. *)
Theorem date_windows_count (dates : list Date) (window_days : Z) :
  (length (date_windows dates window_days) <= length dates)%nat /\
  (date_windows dates window_days = [] <-> dates = []).
Proof.
  split.
  - unfold date_windows. etrans; [apply length_keep_window|]. simpl.
    destruct (sort_by_len_desc_spec
                (anchored_windows (sorted dates) window_days)) as [Hp _].
    rewrite (Permutation_length Hp), length_anchored_windows.
    destruct (sorted_spec dates) as [Hp' _].
    by rewrite (Permutation_length Hp').
  - split.
    + intros Hnil. destruct dates as [|d dates]; [done|]. exfalso.
      destruct (date_windows_one (d :: dates) window_days d) as (w & Hw & _);
        [left|].
      rewrite Hnil in Hw. by apply elem_of_nil in Hw.
    + by intros ->.
Qed.

(** * [Team.name] *)

Lemma pretty_N_go_no_space (x : N) (s : string) :
  no_space s -> no_space (pretty_N_go x s).
Proof.
  revert s. induction (N.lt_wf_0 x) as [x _ IH]; intros s Hs.
  assert (x = 0 \/ 0 < x)%N as [->|Hpos] by lia.
  - by rewrite pretty_N_go_0.
  - rewrite pretty_N_go_step by done. apply IH.
    + by apply N.div_lt.
    + split; [|done]. unfold pretty_N_char. by repeat case_match.
Qed.

Lemma pretty_Z_no_space (z : Z) : no_space (pretty z).
Proof.
  destruct z as [|p|p]; unfold pretty, pretty_Z, pretty, pretty_positive,
    pretty, pretty_N; simpl; try done.
  - by apply pretty_N_go_no_space.
  - split; [done|]. by apply pretty_N_go_no_space.
Qed.

Lemma no_space_append (a b : string) : ¬ no_space (a +:+ String " " b).
Proof. induction a as [|c a IH]; simpl; [by intros [? _] | by intros [_ ?]]. Qed.

(** The last space of a name separates the club from the index. *)
Lemma name_split (s1 s2 p1 p2 : string) :
  no_space p1 -> no_space p2 ->
  s1 +:+ " " +:+ p1 = s2 +:+ " " +:+ p2 -> s1 = s2 /\ p1 = p2.
Proof.
  intros Hp1 Hp2. revert s2.
  induction s1 as [|c s1 IH]; intros [|c' s2];
    unfold String.append; fold String.append.
  - by intros [= ->].
  - intros [= <- ->]. by apply no_space_append in Hp1.
  - intros [= -> <-]. by apply no_space_append in Hp2.
  - intros [= -> Heq]. by destruct (IH _ Heq) as [-> ->].
Qed.

(** X22: two teams have the same display name exactly when they have the
    same club and the same index; the division plays no part, so teams of
    different divisions can share a name. *)
Theorem name_inj (t1 t2 : Team) :
  name t1 = name t2 <-> club t1 = club t2 /\ index t1 = index t2.
Proof.
  unfold name. split.
  - intros Heq. apply name_split in Heq as [Hclub Hindex];
      [|apply pretty_Z_no_space..].
    split; [done|]. by apply (inj pretty).
  - by intros [-> ->].
Qed.

Example name_of_team_A : name team_A = "Test Club A 1".
Proof. vm_compute. reflexivity. Qed.

(** * [print_fixtures] *)

Lemma length_bind_with {A B} (g : A -> list B) (l : list A) :
  length (l ≫= g) = sum_list_with (fun x => length (g x)) l.
Proof.
  induction l as [|x l IH]; [done|].
  rewrite bind_cons, length_app, IH. done.
Qed.

Lemma sum_list_with_ext_in {A} (f g : A -> nat) (l : list A) :
  (forall x, x ∈ l -> f x = g x) -> sum_list_with f l = sum_list_with g l.
Proof.
  induction l as [|x l IH]; intros Hfg; simpl; [done|].
  rewrite (Hfg x) by left. rewrite IH; [done|]. intros; apply Hfg; by right.
Qed.

Lemma sum_list_with_const {A} (n : nat) (l : list A) :
  sum_list_with (fun _ => n) l = (n * length l)%nat.
Proof. induction l as [|x l IH]; simpl; [lia|]. rewrite IH. lia. Qed.

Lemma sum_list_with_S {A} (h : A -> nat) (l : list A) :
  sum_list_with (fun x => S (h x)) l = (length l + sum_list_with h l)%nat.
Proof. induction l as [|x l IH]; simpl; [done|]. rewrite IH. lia. Qed.

Lemma insert_by_date_perm sf l : insert_by_date sf l ≡ₚ sf :: l.
Proof.
  induction l as [|sf' l IH]; simpl; [done|].
  case_decide; [done|]. rewrite IH. apply Permutation_swap.
Qed.

Lemma sorted_by_date_perm l : sorted_by_date l ≡ₚ l.
Proof.
  unfold sorted_by_date.
  cut (forall acc, fold_left (fun acc sf => insert_by_date sf acc) l acc ≡ₚ acc ++ l).
  { intros Hc. apply (Hc []). }
  induction l as [|sf l IH]; intros acc; simpl.
  - by rewrite app_nil_r.
  - rewrite IH, insert_by_date_perm. simpl. apply Permutation_middle.
Qed.

Lemma insert_by_team_key_perm t l : insert_by_team_key t l ≡ₚ t :: l.
Proof.
  induction l as [|t' l IH]; simpl; [done|].
  destruct (team_key_lt t t'); [done|]. rewrite IH. apply Permutation_swap.
Qed.

Lemma sorted_by_team_key_perm l : sorted_by_team_key l ≡ₚ l.
Proof.
  unfold sorted_by_team_key.
  cut (forall acc,
         fold_left (fun acc t => insert_by_team_key t acc) l acc ≡ₚ acc ++ l).
  { intros Hc. apply (Hc []). }
  induction l as [|t l IH]; intros acc; simpl.
  - by rewrite app_nil_r.
  - rewrite IH, insert_by_team_key_perm. simpl. apply Permutation_middle.
Qed.

Lemma filed_weight_append {K A} `{EqDecision K} (f : K -> A -> nat) k v
    (d : list (K * list A)) :
  filed_weight f (dict_append k v d) = (filed_weight f d + f k v)%nat.
Proof.
  unfold filed_weight, dict_append.
  induction d as [|[k' l] d IH]; simpl; [lia|].
  destruct (decide (k = k')) as [->|Hne]; simpl.
  - rewrite sum_list_with_app. simpl. lia.
  - rewrite IH. lia.
Qed.

Lemma dict_append_keys {K A} `{EqDecision K} k (v : A) (d : list (K * list A)) :
  NoDup d.*1 ->
  NoDup (dict_append k v d).*1 /\
  forall k', k' ∈ (dict_append k v d).*1 <-> k' = k \/ k' ∈ d.*1.
Proof.
  intros Hnd. split; [by apply dict_update_NoDup|].
  intros k'. unfold dict_append. rewrite dict_update_keys.
  case_decide as Hk.
  - split; [auto | intros [-> | ?]; done].
  - rewrite elem_of_app, list_elem_of_singleton. tauto.
Qed.

Lemma dict_values_by_key {K A} `{EqDecision K} (h : list A -> nat)
    (d : list (K * list A)) :
  NoDup d.*1 ->
  sum_list_with (fun k => h (default [] (dict_get k d))) d.*1 =
  sum_list_with (fun e => h e.2) d.
Proof.
  induction d as [|[k v] d IH]; intros Hnd; [done|].
  apply NoDup_cons in Hnd as [Hk Hnd].
  rewrite fmap_cons. cbn [sum_list_with fst snd dict_get].
  rewrite decide_True by done. simpl. f_equal.
  rewrite <- IH by done. apply sum_list_with_ext_in.
  intros k' Hk'. rewrite decide_False; [done|]. by intros ->.
Qed.

Section print_fixtures_facts.
Variable strftime_a : Date -> string.
Variable isoformat : Date -> string.

Lemma length_club_lines club0 l last :
  length (club_lines strftime_a isoformat club0 l last) =
  sum_list_with (fun sf => length (club_teams club0 sf)) l.
Proof.
  revert last. induction l as [|sf l IH]; intros last; simpl; [done|].
  by rewrite length_app, length_fmap, IH.
Qed.

Lemma length_team_lines team l last :
  length (team_lines strftime_a isoformat team l last) = length l.
Proof.
  revert last. induction l as [|sf l IH]; intros last; simpl; [done|].
  by rewrite IH.
Qed.

Lemma length_club_teams club0 sf :
  length (club_teams club0 sf) =
  ((if decide (club (home_team (fixture sf)) = club0) then 1 else 0) +
   (if decide (club (away_team (fixture sf)) = club0) then 1 else 0))%nat.
Proof.
  unfold club_teams. rewrite !filter_cons, filter_nil. simpl.
  repeat case_decide; done.
Qed.

(** What the first loop leaves in the two dictionaries. *)
Lemma file_fixtures_spec (fixtures : list ScheduledFixture) :
  let idx := fold_left file_fixture fixtures ([], []) in
  (NoDup idx.1.*1 /\
   (forall c, c ∈ idx.1.*1 <->
      c ∈ (sf ← fixtures;
           [club (home_team (fixture sf)); club (away_team (fixture sf))])) /\
   forall f, filed_weight f idx.1 =
     sum_list_with (fun sf => f (club (home_team (fixture sf))) sf +
                              f (club (away_team (fixture sf))) sf)%nat fixtures) /\
  (NoDup idx.2.*1 /\
   (forall t, t ∈ idx.2.*1 <->
      t ∈ (sf ← fixtures; [home_team (fixture sf); away_team (fixture sf)])) /\
   forall f, filed_weight f idx.2 =
     sum_list_with (fun sf => f (home_team (fixture sf)) sf +
                              f (away_team (fixture sf)) sf)%nat fixtures).
Proof.
  induction fixtures as [|sf fixtures IH] using rev_ind.
  - simpl. repeat split; try constructor; try done.
  - rewrite fold_left_app. simpl.
    destruct IH as [(Hnd1 & Hk1 & Hw1) (Hnd2 & Hk2 & Hw2)].
    set (idx := fold_left file_fixture fixtures ([], [])) in *.
    unfold file_fixture. cbn [fst snd]. split.
    + destruct (dict_append_keys (club (home_team (fixture sf))) sf idx.1 Hnd1)
        as [Hnd Hk].
      destruct (dict_append_keys (club (away_team (fixture sf))) sf _ Hnd)
        as [Hnd' Hk'].
      split; [done|]. split.
      * intros c. rewrite Hk', Hk, Hk1, bind_app, bind_singleton, elem_of_app.
        rewrite !elem_of_cons, elem_of_nil. tauto.
      * intros f. rewrite !filed_weight_append, Hw1, sum_list_with_app. simpl. lia.
    + destruct (dict_append_keys (home_team (fixture sf)) sf idx.2 Hnd2)
        as [Hnd Hk].
      destruct (dict_append_keys (away_team (fixture sf)) sf _ Hnd)
        as [Hnd' Hk'].
      split; [done|]. split.
      * intros t. rewrite Hk', Hk, Hk2, bind_app, bind_singleton, elem_of_app.
        rewrite !elem_of_cons, elem_of_nil. tauto.
      * intros f. rewrite !filed_weight_append, Hw2, sum_list_with_app. simpl. lia.
Qed.

Lemma length_keys_distinct {K} `{EqDecision K} (keys l : list K) :
  NoDup keys -> (forall k, k ∈ keys <-> k ∈ l) ->
  length keys = length (remove_dups l).
Proof.
  intros Hnd Hsame. apply Permutation_length, NoDup_Permutation; [done|..].
  - apply NoDup_remove_dups.
  - intros k. by rewrite Hsame, elem_of_remove_dups.
Qed.
End print_fixtures_facts.

(** X23: [print_fixtures] prints two headers, one line per club and per
    team that takes part, and every fixture twice in the team section; in
    the club section a fixture is printed twice, but four times when both
    its teams belong to one club. *)
Theorem print_fixtures_length (strftime_a isoformat : Date -> string)
    (fixtures : list ScheduledFixture) :
  length (print_fixtures strftime_a isoformat fixtures) =
  (2 +
   length (remove_dups
     (sf ← fixtures;
      [club (home_team (fixture sf)); club (away_team (fixture sf))])) +
   length (remove_dups
     (sf ← fixtures; [home_team (fixture sf); away_team (fixture sf)])) +
   sum_list_with
     (fun sf =>
        if decide (club (home_team (fixture sf)) = club (away_team (fixture sf)))
        then 4 else 2) fixtures +
   2 * length fixtures)%nat.
Proof.
  unfold print_fixtures.
  destruct (file_fixtures_spec fixtures)
    as [(Hnd1 & Hk1 & Hw1) (Hnd2 & Hk2 & Hw2)].
  set (idx := fold_left file_fixture fixtures ([], [])) in *.
  rewrite !length_app, !length_bind_with. simpl.
  rewrite <- (length_keys_distinct idx.1.*1 _ Hnd1 Hk1).
  rewrite <- (length_keys_distinct idx.2.*1 _ Hnd2 Hk2).
  rewrite !length_fmap.
  (* the club section *)
  rewrite (sum_list_with_ext_in _
    (fun e => S (sum_list_with (fun sf => length (club_teams e.1 sf)) e.2))).
  2:{ intros e _. rewrite length_club_lines.
      by rewrite (sorted_by_date_perm e.2). }
  rewrite sum_list_with_S.
  fold (filed_weight (fun c sf => length (club_teams c sf)) idx.1).
  rewrite Hw1.
  rewrite (sum_list_with_ext_in
    (fun sf => (length (club_teams (club (home_team (fixture sf))) sf) +
                length (club_teams (club (away_team (fixture sf))) sf))%nat)
    (fun sf =>
       if decide (club (home_team (fixture sf)) = club (away_team (fixture sf)))
       then 4%nat else 2%nat)).
  2:{ intros sf _. rewrite !length_club_teams.
      repeat case_decide; try done; congruence. }
  (* the team section *)
  rewrite (sorted_by_team_key_perm idx.2.*1).
  rewrite (sum_list_with_ext_in _
    (fun t => S (length (default [] (dict_get t idx.2))))).
  2:{ intros t _. rewrite length_team_lines.
      by rewrite (sorted_by_date_perm _). }
  rewrite (dict_values_by_key (fun l => S (length l)) idx.2 Hnd2).
  rewrite sum_list_with_S.
  rewrite (sum_list_with_ext_in (fun e => length e.2)
             (fun e => sum_list_with (fun _ => 1%nat) e.2)).
  2:{ intros e _. rewrite sum_list_with_const. lia. }
  fold (filed_weight (fun (_ : Team) (_ : ScheduledFixture) => 1%nat) idx.2).
  rewrite Hw2.
  rewrite (sum_list_with_ext_in (fun _ => (1 + 1)%nat) (fun _ => 2%nat)) by done.
  rewrite sum_list_with_const. lia.
Qed.

Example print_fixtures_derby :
  print_fixtures (fun _ => "Day") pretty [derby; visit] =
  [ "Fixtures by club:";
    "Harrow";
    "  Day 3: Harrow 1 Away vs Ealing 1";
    "  Day 10: Harrow 1 Home vs Harrow 2 (+7d)";
    "  Day 10: Harrow 2 Away vs Harrow 1 (+7d)";
    "  Day 10: Harrow 1 Home vs Harrow 2 (+0d)";
    "  Day 10: Harrow 2 Away vs Harrow 1 (+0d)";
    "Ealing";
    "  Day 3: Ealing 1 Home vs Harrow 1";
    String "010" "Fixtures by team:";
    "Ealing 1";
    "  Day 3: Home vs Harrow 1";
    "Harrow 1";
    "  Day 3: Away vs Ealing 1";
    "  Day 10: Home vs Harrow 2 (+7d)";
    "Harrow 2";
    "  Day 10: Away vs Harrow 1" ].
Proof. vm_compute. reflexivity. Qed.

(** * When [gen_dates] overflows *)

Lemma seek_weekday_None fuel current dow :
  MAXORDINAL - current <= Z.of_nat fuel -> 1 <= current ->
  seek_weekday fuel current dow = None ->
  forall x, current <= x <= MAXORDINAL -> weekday x ≠ dow.
Proof.
  revert current. induction fuel as [|fuel IH]; intros current Hfuel H1; simpl;
    (case_decide as Hw; [done|]);
    destruct (add_days current 1) as [next|] eqn:Hadd.
  - apply add_days_Some in Hadd as [_ ?]. lia.
  - intros _ x Hx. unfold add_days in Hadd. case_decide; [done|].
    by assert (x = current) as -> by lia.
  - apply add_days_Some in Hadd as [-> Hnext]. intros Hnone x Hx.
    destruct (decide (x = current)) as [->|]; [done|].
    apply (IH (current + 1)); [lia | lia | done | lia].
  - intros _ x Hx. unfold add_days in Hadd. case_decide; [done|].
    by assert (x = current) as -> by lia.
Qed.

Section weekly_overflow_facts.
Variable year_month : Date -> Z * Z.

Lemma weekly_None fuel to_date exclude current cm mo result :
  MAXORDINAL - current <= Z.of_nat fuel -> 1 <= current ->
  weekly year_month fuel to_date exclude current cm mo result = None ->
  exists d, current <= d <= to_date /\ (d - current) mod 7 = 0 /\
    MAXORDINAL < d + 7.
Proof.
  revert current cm mo result.
  induction fuel as [|fuel IH]; intros current cm mo result Hfuel H1; simpl;
    (case_decide as Hto; [|done]);
    destruct (add_days current 7) as [next|] eqn:Hadd.
  - apply add_days_Some in Hadd as [_ ?]. lia.
  - intros _. exists current. unfold add_days in Hadd. case_decide; [done|].
    split; [lia|]. split; [by rewrite Z.sub_diag | lia].
  - apply add_days_Some in Hadd as [-> Hnext].
    intros (d & Hd & Hmod & Hover)%IH; [|lia..].
    exists d. split; [lia|]. split; [|done].
    revert Hmod. clear. intros. Z.div_mod_to_equations. lia.
  - intros _. exists current. unfold add_days in Hadd. case_decide; [done|].
    split; [lia|]. split; [by rewrite Z.sub_diag | lia].
Qed.

Lemma weekly_Some_in_range fuel to_date exclude current cm mo result l :
  weekly year_month fuel to_date exclude current cm mo result = Some l ->
  forall d, current <= d <= to_date -> (d - current) mod 7 = 0 ->
    d + 7 <= MAXORDINAL.
Proof.
  revert current cm mo result.
  induction fuel as [|fuel IH]; intros current cm mo result; simpl;
    (case_decide as Hto; [|intros _ d ?; lia]);
    destruct (add_days current 7) as [next|] eqn:Hadd; try done.
  apply add_days_Some in Hadd as [-> Hnext].
  intros Hl d Hd Hmod.
  destruct (decide (d = current)) as [->|Hne]; [lia|].
  eapply IH; [exact Hl | |].
  - assert (7 <= d - current); [|lia].
    revert Hmod Hd Hne. clear. intros. Z.div_mod_to_equations. lia.
  - revert Hmod. clear. intros Hmod. Z.div_mod_to_equations. lia.
Qed.
End weekly_overflow_facts.

(** X24: [gen_dates] raises [OverflowError] exactly when no date from
    [from_date] to [date.max] has the wanted weekday, or some date of the
    range with that weekday is less than 7 days before [date.max]; in all
    other cases it returns a list. *)
Theorem gen_dates_overflow (year_month : Date -> Z * Z)
    (from_date to_date : Date) (day_of_week : Z) (exclude : option (list Z)) :
  is_date from_date ->
  gen_dates year_month from_date to_date day_of_week exclude = None <->
  (forall x, from_date <= x <= MAXORDINAL -> weekday x ≠ day_of_week) \/
  (exists d, from_date <= d <= to_date /\ weekday d = day_of_week /\
     MAXORDINAL < d + 7).
Proof.
  intros [H1 Hmax]. unfold gen_dates.
  destruct (seek_weekday _ from_date day_of_week) as [c0|] eqn:Hseek.
  - pose proof Hseek as (Hfrom & Hw & Hmin & Hc0)%seek_weekday_Some.
    assert (c0 <= MAXORDINAL) as Hc0' by (destruct Hc0 as [-> | ?]; lia).
    split.
    + intros (d & Hd & Hmod & Hover)%weekly_None; [|lia..].
      right. exists d. split; [lia|]. split; [|done].
      rewrite <- Hw. symmetry. by apply weekday_same.
    + intros [Hnone | (d & Hd & Hwd & Hover)].
      { exfalso. apply (Hnone c0); [lia | done]. }
      destruct (weekly _ _ _ _ _ _ _ _) as [l|] eqn:Hl; [|done]. exfalso.
      assert (c0 <= d) as Hle.
      { destruct (Z_le_gt_dec c0 d) as [|Hlt]; [done|].
        exfalso. apply (Hmin d); [lia | done]. }
      pose proof (weekly_Some_in_range _ _ _ _ _ _ _ _ _ Hl d) as Hin.
      assert (d + 7 <= MAXORDINAL); [|lia].
      apply Hin; [lia|]. apply weekday_same. congruence.
  - split; [|done]. intros _. left.
    eapply seek_weekday_None; [|exact H1|exact Hseek]. lia.
Qed.

Lemma gen_dates_overflow_witness :
  gen_dates civil_year_month 739495 3652058 THURSDAY None = None <->
  (forall x, 739495 <= x <= MAXORDINAL -> weekday x ≠ THURSDAY) \/
  (exists d, 739495 <= d <= 3652058 /\ weekday d = THURSDAY /\
     MAXORDINAL < d + 7).
Proof.
  apply (gen_dates_overflow civil_year_month 739495 3652058 THURSDAY None).
  unfold is_date, MAXORDINAL. lia.
Defined.
